(** * Message sending service: a shallow embedding of the scheduled batch
      dispatcher (entities, repository queries, the message use case and the
      scheduler use case) and the properties checked against it. *)

From Stdlib Require Import ZArith String Ascii Bool Lia DecimalString.
From stdpp Require Import base list gmap strings sorting.

Local Open Scope string_scope.
Local Open Scope list_scope.
Local Open Scope Z_scope.

(** ** Errors (internal/domain/entities, errors) *)

(** Go's [error] values.  The six sentinel errors of the entities package
    keep their names; [ErrExternal] is an error raised by a collaborator
    outside this repository (SQL driver, HTTP transport, redis client, cron
    parser); [Errorf_w prefix e] is [fmt.Errorf(prefix + "%w", e)] and
    [Errorf_s text] is an error built from a formatted text. *)
Inductive error : Type :=
  | ErrInvalidMessageContent
  | ErrMessageTooLong
  | ErrInvalidPhoneNumber
  | ErrMessageNotFound
  | ErrSchedulerNotRunning
  | ErrSchedulerAlreadyRunning
  | ErrExternal (text : string)
  | Errorf_w (prefix : string) (cause : error)
  | Errorf_s (text : string).

Global Instance error_eq_dec : EqDecision error.
Proof. solve_decision. Defined.

(** [err.Error()] *)
Fixpoint Error (e : error) : string :=
  match e with
  | ErrInvalidMessageContent => "message content cannot be empty"
  | ErrMessageTooLong => "message content exceeds 160 characters"
  | ErrInvalidPhoneNumber => "phone number cannot be empty"
  | ErrMessageNotFound => "message not found"
  | ErrSchedulerNotRunning => "scheduler is not running"
  | ErrSchedulerAlreadyRunning => "scheduler is already running"
  | ErrExternal text => text
  | Errorf_w prefix cause => prefix +:+ Error cause
  | Errorf_s text => text
  end.

(** ** Message entity (internal/domain/entities/message.go) *)

Inductive MessageStatus : Type :=
  | MessageStatusPending
  | MessageStatusSent
  | MessageStatusFailed.

Global Instance MessageStatus_eq_dec : EqDecision MessageStatus.
Proof. solve_decision. Defined.

(** Times are instants on an integer time line (nanoseconds); the UUID is
    kept as its canonical text, the form every use in the use cases takes
    ([message.ID.String()]) or compares ([WHERE id = $1]). *)
Record Message : Type := mkMessage {
  ID : string;
  Content : string;
  PhoneNumber : string;
  Status : MessageStatus;
  CreatedAt : Z;
  UpdatedAt : Z;
  SentAt : option Z;
  ExternalMessageID : option string;
  ErrorMessage : option string
}.

(** [len(s)] of a Go string: its number of bytes. *)
Definition len (s : string) : Z := Z.of_nat (String.length s).

Definition Validate (m : Message) : option error :=
  if String.eqb (Content m) "" then Some ErrInvalidMessageContent
  else if 160 <? len (Content m) then Some ErrMessageTooLong
  else if String.eqb (PhoneNumber m) "" then Some ErrInvalidPhoneNumber
  else None.

Definition MarkAsSent (m : Message) (externalMessageID : string) (now : Z) : Message :=
  {| ID := ID m; Content := Content m; PhoneNumber := PhoneNumber m;
     Status := MessageStatusSent;
     CreatedAt := CreatedAt m;
     UpdatedAt := now;
     SentAt := Some now;
     ExternalMessageID := Some externalMessageID;
     ErrorMessage := ErrorMessage m |}.

Definition MarkAsFailed (m : Message) (errorMsg : string) (now : Z) : Message :=
  {| ID := ID m; Content := Content m; PhoneNumber := PhoneNumber m;
     Status := MessageStatusFailed;
     CreatedAt := CreatedAt m;
     UpdatedAt := now;
     SentAt := SentAt m;
     ExternalMessageID := ExternalMessageID m;
     ErrorMessage := Some errorMsg |}.

Definition IsPending (m : Message) : bool :=
  bool_decide (Status m = MessageStatusPending).

Definition IsSent (m : Message) : bool :=
  bool_decide (Status m = MessageStatusSent).

(** ** Collaborators: logger, store, cache, delivery client *)

Inductive Level : Type := DebugLevel | InfoLevel | WarnLevel | ErrorLevel.

Global Instance Level_eq_dec : EqDecision Level.
Proof. solve_decision. Defined.

(** What the cache keeps under a key: the scheduler status text, or the
    [MessageSentInfo] of a sent message.  Expiry is not modelled. *)
Inductive CacheValue : Type :=
  | CacheText (text : string)
  | MessageSentInfo (ExternalMessageID : string) (SentAt : Z).

(** Everything the use cases reach through their dependencies: the rows of
    the [messages] table, the optional cache ([None] is a nil [cacheRepo]),
    the requests received by the delivery API as (destination, content), and
    the lines written to the logger. *)
Record World : Type := mkWorld {
  rows : list Message;
  cacheRepo : option (gmap string CacheValue);
  api_calls : list (string * string);
  log : list (Level * string)
}.

(** Code that threads the world: a state monad. *)
Definition State (A : Type) : Type := World → A * World.

Definition ret {A} (a : A) : State A := λ w, (a, w).

Definition bind {A B} (c : State A) (k : A → State B) : State B :=
  λ w, let (a, w') := c w in k a w'.

Declare Scope state_scope.
Delimit Scope state_scope with state.
Bind Scope state_scope with State.
Notation "x <- c1 ;; c2" := (bind c1 (λ x, c2))
  (at level 100, c1 at next level, c2 at level 200, right associativity) : state_scope.
Notation "c1 ;; c2" := (bind c1 (λ _, c2))
  (at level 100, c2 at level 200, right associativity) : state_scope.
Local Open Scope state_scope.

Definition logf (lvl : Level) (msg : string) : State unit :=
  λ w, (tt, {| rows := rows w; cacheRepo := cacheRepo w;
               api_calls := api_calls w; log := log w ++ [(lvl, msg)] |}).

Definition when_err (e : option error) (c : State unit) : State unit :=
  match e with Some _ => c | None => ret tt end.

(** *** internal/infrastructure/database/message_repository_impl.go *)

(** What the database does with a query, decided outside the program. *)
Inductive FetchOutcome : Type :=
  | FetchOk
  | QueryFails (e : error)
  | ScanFails (e : error).

Inductive UpdateOutcome : Type :=
  | ExecOk
  | ExecFails (e : error)
  | RowsAffectedFails (e : error).

Global Instance FetchOutcome_eq_dec : EqDecision FetchOutcome.
Proof. solve_decision. Defined.

Global Instance UpdateOutcome_eq_dec : EqDecision UpdateOutcome.
Proof. solve_decision. Defined.

(** The database's answer to an [INSERT]: a refusal covers the connection
    failing as well as a constraint of the schema (primary key, the length
    of [phone_number], the check on [content]) being violated. *)
Inductive InsertOutcome : Type :=
  | InsertOk
  | InsertFails (e : error).

(** The database's answer to a query scanned with [QueryRow(...).Scan]: a
    failure is any error other than [sql.ErrNoRows]. *)
Inductive RowOutcome : Type :=
  | RowOk
  | RowFails (e : error).

(** [ORDER BY created_at ASC]: rows are compared by their creation time. *)
Definition created_le (a b : Message) : Prop := CreatedAt a ≤ CreatedAt b.

Global Instance created_le_dec : RelDecision created_le.
Proof. intros a b. unfold created_le. apply _. Defined.

Module Repo.

(** [SELECT ... WHERE status = 'pending' ORDER BY created_at ASC LIMIT $1].
    The order of rows with equal creation times, which SQL leaves open, is
    the one the sort gives; a negative limit is refused by the database. *)
Definition select_pending (table : list Message) (limit : Z) : list Message :=
  take (Z.to_nat limit) (merge_sort created_le (List.filter IsPending table)).

Definition GetPendingMessages (fetch : FetchOutcome) (limit : Z)
  : State (list Message * option error) :=
  λ w,
  match fetch with
  | QueryFails e => (([], Some (Errorf_w "failed to get pending messages: " e)), w)
  | ScanFails e => (([], Some (Errorf_w "failed to scan message: " e)), w)
  | FetchOk =>
      if limit <? 0
      then (([], Some (Errorf_w "failed to get pending messages: "
                         (ErrExternal "LIMIT must not be negative"))), w)
      else ((select_pending (rows w) limit, None), w)
  end.

(** [UPDATE messages SET content, phone_number, status, updated_at, sent_at,
    external_message_id, error_message WHERE id = $1] on one row. *)
Definition update_row (m r : Message) : Message :=
  if String.eqb (ID r) (ID m)
  then {| ID := ID r; Content := Content m; PhoneNumber := PhoneNumber m;
          Status := Status m; CreatedAt := CreatedAt r;
          UpdatedAt := UpdatedAt m; SentAt := SentAt m;
          ExternalMessageID := ExternalMessageID m;
          ErrorMessage := ErrorMessage m |}
  else r.

Definition rowsAffected (m : Message) (table : list Message) : Z :=
  Z.of_nat (length (List.filter (λ r, String.eqb (ID r) (ID m)) table)).

Definition exec_update (m : Message) : State Z :=
  λ w, (rowsAffected m (rows w),
        {| rows := map (update_row m) (rows w); cacheRepo := cacheRepo w;
           api_calls := api_calls w; log := log w |}).

Definition Update (db : UpdateOutcome) (message : Message) : State (option error) :=
  match db with
  | ExecFails e => ret (Some (Errorf_w "failed to update message: " e))
  | RowsAffectedFails e =>
      exec_update message ;;
      ret (Some (Errorf_w "failed to get rows affected: " e))
  | ExecOk =>
      n <- exec_update message ;;
      if n =? 0 then ret (Some ErrMessageNotFound) else ret None
  end.

(** The nil UUID, in its canonical text. *)
Definition uuid_Nil : string := "00000000-0000-0000-0000-000000000000".

(** [INSERT INTO messages (id, content, phone_number, status, created_at,
    updated_at)]: the other columns of the new row are NULL.  [fresh] is
    what [uuid.New()] gives when the message comes without an identifier;
    the message is returned as [Create] leaves it. *)
Definition inserted_row (m : Message) : Message :=
  {| ID := ID m; Content := Content m; PhoneNumber := PhoneNumber m;
     Status := Status m; CreatedAt := CreatedAt m; UpdatedAt := UpdatedAt m;
     SentAt := None; ExternalMessageID := None; ErrorMessage := None |}.

Definition with_ID (id : string) (m : Message) : Message :=
  {| ID := id; Content := Content m; PhoneNumber := PhoneNumber m;
     Status := Status m; CreatedAt := CreatedAt m; UpdatedAt := UpdatedAt m;
     SentAt := SentAt m; ExternalMessageID := ExternalMessageID m;
     ErrorMessage := ErrorMessage m |}.

Definition Create (db : InsertOutcome) (fresh : string) (message : Message)
  : State (Message * option error) :=
  let message := if String.eqb (ID message) uuid_Nil then with_ID fresh message
                 else message in
  match db with
  | InsertFails e => ret (message, Some (Errorf_w "failed to create message: " e))
  | InsertOk =>
      λ w, ((message, None),
            {| rows := rows w ++ [inserted_row message]; cacheRepo := cacheRepo w;
               api_calls := api_calls w; log := log w |})
  end.

(** [SELECT ... WHERE id = $1] read with [QueryRow]: the first row found. *)
Definition find_row (id : string) (table : list Message) : option Message :=
  List.find (λ r, String.eqb (ID r) id) table.

Definition GetByID (db : RowOutcome) (id : string)
  : State (option Message * option error) :=
  λ w,
  match db with
  | RowFails e => ((None, Some (Errorf_w "failed to get message: " e)), w)
  | RowOk =>
      match find_row id (rows w) with
      | Some r => ((Some r, None), w)
      | None => ((None, Some ErrMessageNotFound), w)
      end
  end.

(** [ORDER BY sent_at DESC]: latest first, rows without a sent time before
    the others, as the database orders NULLs when descending. *)
Definition sent_ge (a b : Message) : Prop :=
  match SentAt a, SentAt b with
  | None, _ => True
  | Some _, None => False
  | Some x, Some y => y ≤ x
  end.

Global Instance sent_ge_dec : RelDecision sent_ge.
Proof.
  intros a b. unfold sent_ge.
  destruct (SentAt a), (SentAt b); apply _.
Defined.

(** [SELECT ... WHERE status = 'sent' ORDER BY sent_at DESC OFFSET $1 LIMIT
    $2]; ties are in the order the sort gives, and a negative offset or
    limit is refused by the database. *)
Definition sent_sorted (table : list Message) : list Message :=
  merge_sort sent_ge (List.filter IsSent table).

Definition select_sent (table : list Message) (offset limit : Z) : list Message :=
  take (Z.to_nat limit) (drop (Z.to_nat offset) (sent_sorted table)).

Definition GetSentMessages (fetch : FetchOutcome) (offset limit : Z)
  : State (list Message * option error) :=
  λ w,
  match fetch with
  | QueryFails e => (([], Some (Errorf_w "failed to get sent messages: " e)), w)
  | ScanFails e => (([], Some (Errorf_w "failed to scan message: " e)), w)
  | FetchOk =>
      if offset <? 0
      then (([], Some (Errorf_w "failed to get sent messages: "
                         (ErrExternal "OFFSET must not be negative"))), w)
      else if limit <? 0
      then (([], Some (Errorf_w "failed to get sent messages: "
                         (ErrExternal "LIMIT must not be negative"))), w)
      else ((select_sent (rows w) offset limit, None), w)
  end.

(** [DELETE FROM messages WHERE id = $1]. *)
Definition exec_delete (id : string) : State Z :=
  λ w, (Z.of_nat (length (List.filter (λ r, String.eqb (ID r) id) (rows w))),
        {| rows := List.filter (λ r, negb (String.eqb (ID r) id)) (rows w);
           cacheRepo := cacheRepo w; api_calls := api_calls w; log := log w |}).

Definition Delete (db : UpdateOutcome) (id : string) : State (option error) :=
  match db with
  | ExecFails e => ret (Some (Errorf_w "failed to delete message: " e))
  | RowsAffectedFails e =>
      exec_delete id ;;
      ret (Some (Errorf_w "failed to get rows affected: " e))
  | ExecOk =>
      n <- exec_delete id ;;
      if n =? 0 then ret (Some ErrMessageNotFound) else ret None
  end.

(** [SELECT COUNT( * ) FROM messages WHERE status = $1], an [int64]. *)
Definition count_status (status : MessageStatus) (table : list Message) : Z :=
  Z.of_nat (length (List.filter (λ r, bool_decide (Status r = status)) table)).

Definition CountByStatus (db : RowOutcome) (status : MessageStatus)
  : State (Z * option error) :=
  λ w,
  match db with
  | RowFails e => ((0, Some (Errorf_w "failed to count messages by status: " e)), w)
  | RowOk => ((count_status status (rows w), None), w)
  end.

End Repo.

(** *** internal/infrastructure/redis/cache_repository_impl.go *)

Module Cache.

(** [Set] on a cache that is present; [redis_err] is the client's answer. *)
Definition Set_ (redis_err : option error) (key : string) (value : CacheValue)
  : State (option error) :=
  λ w,
  match redis_err with
  | Some e => (Some (Errorf_w "failed to set cache value: " e), w)
  | None =>
      (None, {| rows := rows w;
                cacheRepo := (λ c : gmap string CacheValue, <[key := value]> c) <$> cacheRepo w;
                api_calls := api_calls w; log := log w |})
  end.

Definition SetMessageSent (redis_err : option error)
    (messageID externalMessageID : string) (sentAt : Z) : State (option error) :=
  Set_ redis_err ("message_sent:" +:+ messageID)
       (MessageSentInfo externalMessageID sentAt).

Definition SetSchedulerStatus (redis_err : option error) (status : string)
  : State (option error) :=
  Set_ redis_err "scheduler_status" (CacheText status).

End Cache.

(** *** internal/infrastructure/external/message_api.go *)

Module external.

Record SendMessageResponse : Type := mkResponse {
  MessageID : string;
  Status : string;
  Message : string;
  Error : string
}.

(** What [MessageAPIClient.SendMessage] returns: a response with a nil
    error (any 2xx answer), or a non-nil error, with a response when the
    API answered with another status code and without one otherwise. *)
Inductive Result : Type :=
  | Ok (response : SendMessageResponse)
  | Failed (response : option SendMessageResponse) (err : error).

(** The call itself: the request reaches the API, whose answer is [reply]. *)
Definition SendMessage (reply : Result) (phoneNumber message : string) : State Result :=
  λ w, (reply, {| rows := rows w; cacheRepo := cacheRepo w;
                  api_calls := api_calls w ++ [(phoneNumber, message)];
                  log := log w |}).

(** [fmt.Sprintf("%d", n)]. *)
Definition format_d (n : Z) : string := NilZero.string_of_int (Z.to_int n).

(** [generateMockMessageID], [unixNano] being [time.Now().UnixNano()]. *)
Definition generateMockMessageID (unixNano : Z) : string :=
  "msg_" +:+ format_d unixNano.

(** What the HTTP exchange of [MessageAPIClient.SendMessage] gives: the
    request cannot be built, the transport fails (or times out), the body
    cannot be read, or the API answers with a status code and a body.
    Marshalling the request, a struct of two strings, does not fail. *)
Inductive HttpOutcome : Type :=
  | RequestFails (e : error)
  | DoFails (e : error)
  | ReadFails (code : Z) (e : error)
  | Answered (code : Z) (body : string).

Section client.

(** [json.Unmarshal] of a body into a [SendMessageResponse]: the decoded
    response, or nothing when the body is not accepted. *)
Variable unmarshal : string → option SendMessageResponse.

(** The result [MessageAPIClient.SendMessage] returns for an exchange. *)
Definition respond (unixNano : Z) (o : HttpOutcome) : Result :=
  match o with
  | RequestFails e => Failed None (Errorf_w "failed to create request: " e)
  | DoFails e => Failed None (Errorf_w "failed to send request: " e)
  | ReadFails _ e => Failed None (Errorf_w "failed to read response body: " e)
  | Answered code body =>
      if (200 <=? code) && (code <? 300) then
        let response :=
          {| MessageID := generateMockMessageID unixNano; Status := "sent";
             Message := "Message sent successfully"; Error := "" |} in
        match unmarshal body with
        | Some apiResponse =>
            if negb (String.eqb (MessageID apiResponse) "")
            then Ok apiResponse else Ok response
        | None => Ok response
        end
      else
        let errorResponse :=
          match unmarshal body with
          | Some r => r
          | None =>
              {| MessageID := ""; Status := "failed"; Message := "";
                 Error := "HTTP " +:+ format_d code +:+ ": " +:+ body |}
          end in
        Failed (Some errorResponse)
               (Errorf_s ("API request failed with status " +:+ format_d code))
  end.

End client.

End external.

(** ** Message use case (internal/application/usecases/message_usecase_impl.go) *)

(** What the outside world answers during one [SendMessage]: the delivery
    API's reply, the clock read by [MarkAsSent] / [MarkAsFailed], the
    database's answer to the update and the cache's answer to the write. *)
Record SendEnv : Type := mkSendEnv {
  api_reply : external.Result;
  now : Z;
  update_outcome : UpdateOutcome;
  cache_err : option error
}.

(** The same for one [ProcessPendingMessages]: the answer to the fetch and,
    for the i-th message of the batch, the answers to its send. *)
Record BatchEnv : Type := mkBatchEnv {
  fetch : FetchOutcome;
  sends : nat → SendEnv
}.

Definition GetPendingMessages (fetch : FetchOutcome) (limit : Z)
  : State (list Message * option error) :=
  r <- Repo.GetPendingMessages fetch limit ;;
  match r.2 with
  | Some err =>
      logf ErrorLevel "Failed to get pending messages" ;;
      ret ([], Some err)
  | None => ret (r.1, None)
  end.

(** [SendMessage] mutates the message it is given; the mutated message is
    returned next to the error. *)
Definition SendMessage (env : SendEnv) (message : Message)
  : State (Message * option error) :=
  logf InfoLevel "Sending message" ;;
  r <- external.SendMessage (api_reply env) (PhoneNumber message) (Content message) ;;
  match r with
  | external.Failed _ err =>
      let message := MarkAsFailed message (Error err) (now env) in
      updateErr <- Repo.Update (update_outcome env) message ;;
      when_err updateErr
        (logf ErrorLevel "Failed to update message status after API error") ;;
      logf ErrorLevel "Failed to send message via API" ;;
      ret (message, Some err)
  | external.Ok response =>
      if negb (String.eqb (external.Status response) "sent") then
        let errorMsg :=
          if String.eqb (external.Error response) ""
          then "Unknown error from API" else external.Error response in
        let message := MarkAsFailed message errorMsg (now env) in
        updateErr <- Repo.Update (update_outcome env) message ;;
        when_err updateErr
          (logf ErrorLevel "Failed to update message status after API failure") ;;
        ret (message, Some (Errorf_s ("API returned error: " +:+ errorMsg)))
      else
        let message := MarkAsSent message (external.MessageID response) (now env) in
        err <- Repo.Update (update_outcome env) message ;;
        match err with
        | Some err =>
            logf ErrorLevel "Failed to update message status after successful send" ;;
            ret (message, Some err)
        | None =>
            hasCache <- (λ w, (bool_decide (is_Some (cacheRepo w)), w)) ;;
            (if hasCache : bool then
               err <- Cache.SetMessageSent (cache_err env) (ID message)
                        (external.MessageID response) (now env) ;;
               when_err err (logf WarnLevel "Failed to cache sent message info")
             else ret tt) ;;
            logf InfoLevel "Message sent successfully" ;;
            ret (message, None)
        end
  end.

(** The [for _, message := range messages] loop of [ProcessPendingMessages];
    [i] is the position of the head of [messages] in the batch.  Next to the
    count it returns the messages as the sends left them.  [successCount]
    never exceeds [len(messages)], itself an [int]: its increment cannot
    wrap around. *)
Fixpoint sendLoop (env : nat → SendEnv) (i : nat) (messages : list Message)
    (successCount : Z) : State (list Message * Z) :=
  match messages with
  | [] => ret ([], successCount)
  | message :: rest =>
      r <- SendMessage (env i) message ;;
      match r.2 with
      | Some _ =>
          logf ErrorLevel "Failed to send message" ;;
          r' <- sendLoop env (S i) rest successCount ;;
          ret (r.1 :: r'.1, r'.2)
      | None =>
          r' <- sendLoop env (S i) rest (successCount + 1) ;;
          ret (r.1 :: r'.1, r'.2)
      end
  end.

Definition ProcessPendingMessages (env : BatchEnv) (batchSize : Z)
  : State (Z * option error) :=
  logf InfoLevel "Processing pending messages" ;;
  r <- GetPendingMessages (fetch env) batchSize ;;
  match r.2 with
  | Some err => ret (0, Some err)
  | None =>
      let messages := r.1 in
      if Z.of_nat (length messages) =? 0 then
        logf DebugLevel "No pending messages to process" ;;
        ret (0, None)
      else
        r' <- sendLoop (sends env) 0 messages 0 ;;
        logf InfoLevel "Batch processing completed" ;;
        ret (r'.2, None)
  end.

(** The messages of the batch as [ProcessPendingMessages] leaves them in
    memory (it returns only the count). *)
Definition processed_messages (env : BatchEnv) (batchSize : Z) (w : World)
  : list Message :=
  let (r, w1) := GetPendingMessages (fetch env) batchSize w in
  match r.2 with
  | Some _ => []
  | None => (sendLoop (sends env) 0 r.1 0 w1).1.1
  end.

(** ** Scheduler *)

(** Go's [int] on the 64-bit targets the service is built for. *)
Definition max_int : Z := 2 ^ 63 - 1.
Definition min_int : Z := - 2 ^ 63.
Definition wrap_int (z : Z) : Z := (z + 2 ^ 63) mod 2 ^ 64 - 2 ^ 63.

Module config.

Record SchedulerConfig : Type := mkSchedulerConfig {
  Interval : Z;
  MessagesPerBatch : Z
}.

End config.

Inductive SchedulerStatus : Type :=
  | SchedulerStatusStopped
  | SchedulerStatusRunning.

Definition SchedulerStatus_text (s : SchedulerStatus) : string :=
  match s with
  | SchedulerStatusStopped => "stopped"
  | SchedulerStatusRunning => "running"
  end.

(** The snapshot returned by [GetSchedulerStatus] (entities.SchedulerInfo). *)
Module SchedulerInfo.

Record t : Type := mk {
  Status : SchedulerStatus;
  LastRun : option Z;
  NextRun : option Z;
  MessagesCount : Z;
  Interval : Z;
  BatchSize : Z
}.

Definition IsRunning (s : t) : bool :=
  match Status s with SchedulerStatusRunning => true | _ => false end.

(** [Start] and [Stop] of the entity, [now] being [time.Now()]. *)
Definition Start (now : Z) (s : t) : t :=
  {| Status := SchedulerStatusRunning; LastRun := LastRun s; NextRun := Some now;
     MessagesCount := MessagesCount s; Interval := Interval s;
     BatchSize := BatchSize s |}.

Definition Stop (s : t) : t :=
  {| Status := SchedulerStatusStopped; LastRun := LastRun s; NextRun := None;
     MessagesCount := MessagesCount s; Interval := Interval s;
     BatchSize := BatchSize s |}.

End SchedulerInfo.

(** The part of the cron library (github.com/robfig/cron/v3, not of this
    repository) that the scheduler relies on: the registered entries, the
    identifier counter and whether the timer loop runs. *)
Module cron.

Record Cron : Type := mkCron {
  entries : list Z;
  nextID : Z;
  running : bool
}.

Definition New : Cron := {| entries := []; nextID := 0; running := false |}.

(** [parse_err] is the parser's verdict on the schedule expression. *)
Definition AddFunc (parse_err : option error) (c : Cron) : (Z * option error) * Cron :=
  match parse_err with
  | Some e => ((0, Some e), c)
  | None =>
      let id := nextID c + 1 in
      ((id, None), {| entries := entries c ++ [id]; nextID := id; running := running c |})
  end.

Definition Remove (id : Z) (c : Cron) : Cron :=
  {| entries := List.filter (λ e, negb (e =? id)) (entries c);
     nextID := nextID c; running := running c |}.

Definition Start (c : Cron) : Cron :=
  {| entries := entries c; nextID := nextID c; running := true |}.

Definition Stop (c : Cron) : Cron :=
  {| entries := entries c; nextID := nextID c; running := false |}.

(** The timer loop calls the job of entry [id] only while it runs and the
    entry is registered. *)
Definition fires (id : Z) (c : Cron) : bool :=
  running c && existsb (λ e, e =? id) (entries c).

End cron.

(** *** internal/application/usecases/scheduler_usecase_impl.go *)

(** The fields of [schedulerUseCaseImpl] guarded by [mu], with the
    configuration and the cron instance.  The use case and cache
    dependencies live in the [World]. *)
Record schedulerUseCaseImpl : Type := mkScheduler {
  config : config.SchedulerConfig;
  cron : cron.Cron;
  entryID : Z;
  isRunning : bool;
  lastRun : option Z;
  nextRun : option Z;
  sentCount : Z
}.

Definition NewSchedulerUseCase (cfg : config.SchedulerConfig) : schedulerUseCaseImpl :=
  {| config := cfg; cron := cron.New; entryID := 0; isRunning := false;
     lastRun := None; nextRun := None; sentCount := 0 |}.

Record StartEnv : Type := mkStartEnv {
  parse_err : option error;
  start_now : Z;
  start_cache_err : option error
}.

(** The scheduler's cache write: skipped on a nil [cacheRepo], and a failure
    is only logged. *)
Definition cache_scheduler_status (redis_err : option error) (status : SchedulerStatus)
  : State unit :=
  hasCache <- (λ w, (bool_decide (is_Some (cacheRepo w)), w)) ;;
  if hasCache : bool then
    err <- Cache.SetSchedulerStatus redis_err (SchedulerStatus_text status) ;;
    when_err err (logf WarnLevel "Failed to cache scheduler status")
  else ret tt.

Definition StartScheduler (env : StartEnv) (uc : schedulerUseCaseImpl)
  : State (option error * schedulerUseCaseImpl) :=
  if isRunning uc then ret (Some ErrSchedulerAlreadyRunning, uc)
  else
    let (r, cron') := cron.AddFunc (parse_err env) (cron uc) in
    match r.2 with
    | Some err =>
        logf ErrorLevel "Failed to add cron job" ;;
        ret (Some err, uc)
    | None =>
        let uc' := {| config := config uc;
                      cron := cron.Start cron';
                      entryID := r.1;
                      isRunning := true;
                      lastRun := lastRun uc;
                      nextRun := Some (start_now env);
                      sentCount := sentCount uc |} in
        cache_scheduler_status (start_cache_err env) SchedulerStatusRunning ;;
        logf InfoLevel "Scheduler started" ;;
        ret (None, uc')
    end.

Definition StopScheduler (stop_cache_err : option error) (uc : schedulerUseCaseImpl)
  : State (option error * schedulerUseCaseImpl) :=
  if negb (isRunning uc) then ret (Some ErrSchedulerNotRunning, uc)
  else
    let uc' := {| config := config uc;
                  cron := cron.Stop (cron.Remove (entryID uc) (cron uc));
                  entryID := entryID uc;
                  isRunning := false;
                  lastRun := lastRun uc;
                  nextRun := None;
                  sentCount := sentCount uc |} in
    cache_scheduler_status stop_cache_err SchedulerStatusStopped ;;
    logf InfoLevel "Scheduler stopped" ;;
    ret (None, uc').

Definition GetSchedulerStatus (uc : schedulerUseCaseImpl)
  : SchedulerInfo.t * option error :=
  let status := if isRunning uc then SchedulerStatusRunning else SchedulerStatusStopped in
  ({| SchedulerInfo.Status := status;
      SchedulerInfo.LastRun := lastRun uc;
      SchedulerInfo.NextRun := nextRun uc;
      SchedulerInfo.MessagesCount := sentCount uc;
      SchedulerInfo.Interval := config.Interval (config uc);
      SchedulerInfo.BatchSize := config.MessagesPerBatch (config uc) |}, None).

Definition IsRunning (uc : schedulerUseCaseImpl) : bool := isRunning uc.

(** [processMessages] takes the lock twice.  Its first critical section: *)
Definition processMessages_begin (now : Z) (uc : schedulerUseCaseImpl)
  : schedulerUseCaseImpl :=
  {| config := config uc; cron := cron uc; entryID := entryID uc;
     isRunning := isRunning uc;
     lastRun := Some now;
     nextRun := Some (now + config.Interval (config uc));
     sentCount := sentCount uc |}.

(** Between the two, without the lock, the batch call; then, on success, the
    second critical section [uc.sentCount += sentCount]. *)
Definition processMessages_end (env : BatchEnv) (uc : schedulerUseCaseImpl)
  : State schedulerUseCaseImpl :=
  logf InfoLevel "Starting scheduled message processing" ;;
  r <- ProcessPendingMessages env (config.MessagesPerBatch (config uc)) ;;
  match r.2 with
  | Some err =>
      logf ErrorLevel "Failed to process pending messages" ;;
      ret uc
  | None =>
      let uc' := {| config := config uc; cron := cron uc; entryID := entryID uc;
                    isRunning := isRunning uc; lastRun := lastRun uc;
                    nextRun := nextRun uc;
                    sentCount := wrap_int (sentCount uc + r.1) |} in
      logf InfoLevel "Scheduled message processing completed" ;;
      ret uc'
  end.

(** One tick run without interruption. *)
Definition processMessages (now : Z) (env : BatchEnv) (uc : schedulerUseCaseImpl)
  : State schedulerUseCaseImpl :=
  processMessages_end env (processMessages_begin now uc).

(** ** The running service: scheduler, collaborators and ticks in flight *)

(** A tick is a goroutine started by the timer: it first waits for the lock
    of its first critical section, then processes the batch.  The cron
    library runs every job in a goroutine of its own and its [Stop] does not
    wait for the jobs already started, so a tick may take the lock after a
    stop, or a later start, has taken it. *)
Inductive TickPc : Type := TickWaiting | TickProcessing.

Record System : Type := mkSystem {
  sched : schedulerUseCaseImpl;
  world : World;
  ticks : list TickPc
}.

Inductive Event : Type :=
  | EvStart (env : StartEnv)
  | EvStop (stop_cache_err : option error)
  | EvTimerFires
  | EvTickBegin (i : nat) (now : Z)
  | EvTickEnd (i : nat) (env : BatchEnv).

Definition init (cfg : config.SchedulerConfig) (w : World) : System :=
  {| sched := NewSchedulerUseCase cfg; world := w; ticks := [] |}.

(** One atomic step; [None] when the event cannot happen in this state.
    Start and stop calls are always possible (they may return an error); the
    timer fires only while the cron loop runs with the entry registered; a
    waiting tick runs its first critical section; a processing tick ends
    with the batch call and, on success, its second critical section, on
    the scheduler as it is by then (the batch holds no lock, its effects on
    the collaborators are taken at the end of the tick). *)
Definition exec (s : System) (ev : Event) : option System :=
  match ev with
  | EvStart env =>
      let (r, w) := StartScheduler env (sched s) (world s) in
      Some {| sched := r.2; world := w; ticks := ticks s |}
  | EvStop e =>
      let (r, w) := StopScheduler e (sched s) (world s) in
      Some {| sched := r.2; world := w; ticks := ticks s |}
  | EvTimerFires =>
      if cron.fires (entryID (sched s)) (cron (sched s))
      then Some {| sched := sched s; world := world s;
                   ticks := ticks s ++ [TickWaiting] |}
      else None
  | EvTickBegin i now =>
      match ticks s !! i with
      | Some TickWaiting =>
          Some {| sched := processMessages_begin now (sched s); world := world s;
                  ticks := <[i := TickProcessing]> (ticks s) |}
      | _ => None
      end
  | EvTickEnd i env =>
      match ticks s !! i with
      | Some TickProcessing =>
          let (uc, w) := processMessages_end env (sched s) (world s) in
          Some {| sched := uc; world := w; ticks := delete i (ticks s) |}
      | _ => None
      end
  end.

Fixpoint run (s : System) (evs : list Event) : option System :=
  match evs with
  | [] => Some s
  | ev :: evs => match exec s ev with Some s' => run s' evs | None => None end
  end.

Definition reachable (cfg : config.SchedulerConfig) (w : World) (s : System) : Prop :=
  ∃ evs, run (init cfg w) evs = Some s.

(** The invariant of the data model: next-tick is set exactly while running. *)
Definition nextRun_iff_running (uc : schedulerUseCaseImpl) : Prop :=
  is_Some (nextRun uc) ↔ isRunning uc = true.

(** ** The other operations of the message use case
       (internal/application/usecases/message_usecase_impl.go) *)

(** What the outside world answers during one [CreateMessage]: the clock,
    the identifier drawn by [uuid.New()] in the use case, the one the
    repository would draw, and the database's answer to the insert. *)
Record CreateEnv : Type := mkCreateEnv {
  create_now : Z;
  new_id : string;
  repo_new_id : string;
  insert_outcome : InsertOutcome
}.

Definition CreateMessage (env : CreateEnv) (content phoneNumber : string)
  : State (option Message * option error) :=
  let message :=
    {| ID := new_id env; Content := content; PhoneNumber := phoneNumber;
       Status := MessageStatusPending;
       CreatedAt := create_now env; UpdatedAt := create_now env;
       SentAt := None; ExternalMessageID := None; ErrorMessage := None |} in
  match Validate message with
  | Some err => ret (None, Some err)
  | None =>
      r <- Repo.Create (insert_outcome env) (repo_new_id env) message ;;
      match r.2 with
      | Some err =>
          logf ErrorLevel "Failed to create message" ;;
          ret (None, Some (Errorf_w "failed to create message: " err))
      | None =>
          logf InfoLevel "Message created successfully" ;;
          ret (Some r.1, None)
      end
  end.

Definition GetMessageByID (db : RowOutcome) (id : string)
  : State (option Message * option error) :=
  r <- Repo.GetByID db id ;;
  match r.2 with
  | Some err =>
      logf ErrorLevel "Failed to get message by ID" ;;
      ret (None, Some err)
  | None => ret (r.1, None)
  end.

Record SentEnv : Type := mkSentEnv {
  sent_fetch : FetchOutcome;
  sent_count : RowOutcome
}.

(** [offset := (page - 1) * limit] on Go's [int]. *)
Definition page_offset (page limit : Z) : Z :=
  wrap_int (wrap_int (page - 1) * limit).

Definition GetSentMessages (env : SentEnv) (page limit : Z)
  : State (list Message * Z * option error) :=
  let offset := page_offset page limit in
  r <- Repo.GetSentMessages (sent_fetch env) offset limit ;;
  match r.2 with
  | Some err =>
      logf ErrorLevel "Failed to get sent messages" ;;
      ret ([], 0, Some err)
  | None =>
      c <- Repo.CountByStatus (sent_count env) MessageStatusSent ;;
      match c.2 with
      | Some err =>
          logf ErrorLevel "Failed to count sent messages" ;;
          ret ([], 0, Some err)
      | None => ret (r.1, c.1, None)
      end
  end.

Record MessageStats : Type := mkMessageStats {
  TotalMessages : Z;
  PendingMessages : Z;
  SentMessages : Z;
  FailedMessages : Z
}.

Record StatsEnv : Type := mkStatsEnv {
  count_pending : RowOutcome;
  count_sent : RowOutcome;
  count_failed : RowOutcome
}.

(** The sums are on [int64]. *)
Definition GetMessageStats (env : StatsEnv) : State (option MessageStats * option error) :=
  p <- Repo.CountByStatus (count_pending env) MessageStatusPending ;;
  match p.2 with
  | Some err => ret (None, Some err)
  | None =>
      s <- Repo.CountByStatus (count_sent env) MessageStatusSent ;;
      match s.2 with
      | Some err => ret (None, Some err)
      | None =>
          f <- Repo.CountByStatus (count_failed env) MessageStatusFailed ;;
          match f.2 with
          | Some err => ret (None, Some err)
          | None =>
              let totalCount := wrap_int (wrap_int (p.1 + s.1) + f.1) in
              ret (Some {| TotalMessages := totalCount; PendingMessages := p.1;
                           SentMessages := s.1; FailedMessages := f.1 |}, None)
          end
      end
  end.

(** ** Vocabulary of the properties *)

(** The validation rules in the order of the data model, as the
    specification words them (used to compare with [Validate]). *)
Definition violates (m : Message) (e : error) : bool :=
  match e with
  | ErrInvalidMessageContent => bool_decide (Content m = "")
  | ErrMessageTooLong => bool_decide (160 < len (Content m))
  | ErrInvalidPhoneNumber => bool_decide (PhoneNumber m = "")
  | _ => false
  end.

Definition validation_rules : list error :=
  [ErrInvalidMessageContent; ErrMessageTooLong; ErrInvalidPhoneNumber].

Definition earliest_violation (m : Message) : option error :=
  head (List.filter (violates m) validation_rules).

(** The delivery client acknowledged the message as sent. *)
Definition acked_sent (r : external.Result) : bool :=
  match r with
  | external.Ok response => String.eqb (external.Status response) "sent"
  | external.Failed _ _ => false
  end.

(** The answers, for one message, under which the send is acknowledged and
    the update of its row is executed without an error. *)
Definition delivered (e : SendEnv) : bool :=
  acked_sent (api_reply e) &&
  match update_outcome e with ExecOk => true | _ => false end.

(** Number of positions [i .. i+n-1] of a batch that satisfy [p]. *)
Definition count_positions (p : SendEnv → bool) (env : nat → SendEnv) (i n : nat) : Z :=
  Z.of_nat (length (List.filter (λ j, p (env j)) (seq i n))).

(** The request the delivery API receives for a message. *)
Definition request_of (m : Message) : string * string := (PhoneNumber m, Content m).

(** The world after the loop's handling of one send: a failed send adds
    the loop's own log line. *)
Definition after_send_error (r : Message * option error * World) : World :=
  match r.1.2 with
  | Some _ => (logf ErrorLevel "Failed to send message" r.2).2
  | None => r.2
  end.

(** The line was written to the log between the worlds [w] and [w']. *)
Definition logs_during (w w' : World) (line : Level * string) : Prop :=
  ∃ k, log w' = log w ++ k ∧ line ∈ k.

(** Two answers to a send that differ at most in what the cache says. *)
Definition same_but_cache (e1 e2 : SendEnv) : Prop :=
  api_reply e1 = api_reply e2 ∧ now e1 = now e2 ∧
  update_outcome e1 = update_outcome e2.

(** The answers to a send, to a batch, to a start, with the cache's answer
    replaced. *)
Definition with_cache_err (e : option error) (env : SendEnv) : SendEnv :=
  {| api_reply := api_reply env; now := now env;
     update_outcome := update_outcome env; cache_err := e |}.

Definition batch_with_cache_err (e : option error) (env : BatchEnv) : BatchEnv :=
  {| fetch := fetch env; sends := λ i, with_cache_err e (sends env i) |}.

Definition start_with_cache_err (e : option error) (env : StartEnv) : StartEnv :=
  {| parse_err := parse_err env; start_now := start_now env; start_cache_err := e |}.

(** What a step adds to the cumulative counter: the count returned by the
    batch of a finishing tick when it returns no error, nothing otherwise. *)
Definition tick_gain (s : System) (ev : Event) : Z :=
  match ev with
  | EvTickEnd _ env =>
      let r := (ProcessPendingMessages env
                  (config.MessagesPerBatch (config (sched s))) (world s)).1 in
      match r.2 with Some _ => 0 | None => r.1 end
  | _ => 0
  end.

(** The counter stays within Go's [int] along a step, along a run. *)
Definition step_fits (s : System) (ev : Event) : Prop :=
  sentCount (sched s) + tick_gain s ev ≤ max_int.

Fixpoint run_fits (s : System) (evs : list Event) : Prop :=
  match evs with
  | [] => True
  | ev :: evs =>
      step_fits s ev ∧
      match exec s ev with Some s' => run_fits s' evs | None => True end
  end.

(** ** Sample data *)

Definition sample_message (id : string) (created : Z) : Message :=
  {| ID := id; Content := "hello " +:+ id; PhoneNumber := "+905551111111";
     Status := MessageStatusPending; CreatedAt := created; UpdatedAt := created;
     SentAt := None; ExternalMessageID := None; ErrorMessage := None |}.

Fixpoint text_of_length (n : nat) : string :=
  match n with
  | O => ""
  | S n => String "a" (text_of_length n)
  end.

Definition message_160 : Message :=
  {| ID := "m160"; Content := text_of_length 160; PhoneNumber := "+905551111111";
     Status := MessageStatusPending; CreatedAt := 0; UpdatedAt := 0;
     SentAt := None; ExternalMessageID := None; ErrorMessage := None |}.

Definition message_empty_both : Message :=
  {| ID := "m0"; Content := ""; PhoneNumber := "";
     Status := MessageStatusPending; CreatedAt := 0; UpdatedAt := 0;
     SentAt := None; ExternalMessageID := None; ErrorMessage := None |}.

Definition sample_world (table : list Message) : World :=
  {| rows := table; cacheRepo := Some ∅; api_calls := []; log := [] |}.

Definition three_pending : World :=
  sample_world [sample_message "c" 30; sample_message "a" 10; sample_message "b" 20].

Definition one_pending : World := sample_world [sample_message "a" 10].

Definition sent_reply (id : string) : external.Result :=
  external.Ok {| external.MessageID := id; external.Status := "sent";
                 external.Message := "Message sent successfully";
                 external.Error := "" |}.

Definition good_send : SendEnv :=
  {| api_reply := sent_reply "msg_1"; now := 100;
     update_outcome := ExecOk; cache_err := None |}.

Definition all_good : BatchEnv := {| fetch := FetchOk; sends := λ _, good_send |}.

(** The delivery API acknowledges every send, the database refuses every
    update. *)
Definition update_fails : BatchEnv :=
  {| fetch := FetchOk;
     sends := λ _, {| api_reply := sent_reply "msg_1"; now := 100;
                      update_outcome := ExecFails (ErrExternal "connection refused");
                      cache_err := None |} |}.

(** The delivery client fails on the first call and succeeds thereafter. *)
Definition first_send_fails : BatchEnv :=
  {| fetch := FetchOk;
     sends := λ i,
       match i with
       | O => {| api_reply :=
                   external.Failed None (ErrExternal "failed to send request: timeout");
                 now := 100; update_outcome := ExecOk; cache_err := None |}
       | _ => good_send
       end |}.

Definition cache_down : option error := Some (ErrExternal "redis: connection refused").

Definition sample_config : config.SchedulerConfig :=
  {| config.Interval := 120000000000; config.MessagesPerBatch := 2 |}.

Definition start_ok : StartEnv :=
  {| parse_err := None; start_now := 7; start_cache_err := None |}.

Definition running_scheduler : schedulerUseCaseImpl :=
  (StartScheduler start_ok (NewSchedulerUseCase sample_config) (sample_world [])).1.2.

(** Start; the timer fires and the tick waits for the lock; stop; the tick
    takes the lock. *)
Definition tick_overtaken_by_stop : list Event :=
  [EvStart start_ok; EvTimerFires; EvStop None; EvTickBegin 0 9].

(** Start, one full tick over three pending messages, stop. *)
Definition start_tick_stop : list Event :=
  [EvStart start_ok; EvTimerFires; EvTickBegin 0 9; EvTickEnd 0 all_good; EvStop None].


(** ** Vocabulary of the further properties *)

(** Every row of the store passes the validation of the entity. *)
Definition all_valid (w : World) : Prop :=
  Forall (λ r, Validate r = None) (rows w).

(** The identifiers of the store are distinct (the primary key). *)
Definition distinct_ids (w : World) : Prop := NoDup (map ID (rows w)).

Definition create_ok : CreateEnv :=
  {| create_now := 50; new_id := "d"; repo_new_id := "e"; insert_outcome := InsertOk |}.

(** The pages 1 .. k of the sent messages, one after the other. *)
Definition pages_upto (env : SentEnv) (limit : Z) (w : World) (k : nat) : list Message :=
  concat (map (λ p, (GetSentMessages env (Z.of_nat p) limit w).1.1.1) (seq 1 k)).

Definition sent_at (id : string) (created sent : Z) : Message :=
  MarkAsSent (sample_message id created) ("ext_" +:+ id) sent.

Definition three_sent : World :=
  sample_world [sent_at "a" 10 110; sent_at "b" 20 130; sample_message "p" 25;
                sent_at "c" 30 120].

Definition reads_ok : SentEnv := {| sent_fetch := FetchOk; sent_count := RowOk |}.

Definition counts_ok : StatsEnv :=
  {| count_pending := RowOk; count_sent := RowOk; count_failed := RowOk |}.

(** The database executed the update of a send (it may still fail to report
    the affected rows). *)
Definition update_executed (e : SendEnv) : bool :=
  match update_outcome e with ExecFails _ => false | _ => true end.

(** A row is pending and is not one of the given messages. *)
Definition pending_outside (batch : list Message) (r : Message) : bool :=
  IsPending r && negb (bool_decide (ID r ∈ map ID batch)).

(** The answers to a send whose delivery goes over the HTTP exchange [o]. *)
Definition over_http (unmarshal : string → option external.SendMessageResponse)
    (unixNano : Z) (o : external.HttpOutcome) (env : SendEnv) : SendEnv :=
  {| api_reply := external.respond unmarshal unixNano o; now := now env;
     update_outcome := update_outcome env; cache_err := cache_err env |}.

(** A decoder that accepts no body. *)
Definition no_json (body : string) : option external.SendMessageResponse := None.

(** ** Handlers (internal/application/handlers) *)

(** [errors.Is]: the target is the error or one of the errors it wraps. *)
Fixpoint errors_Is (err target : error) : bool :=
  if bool_decide (err = target) then true
  else match err with
       | Errorf_w _ cause => errors_Is cause target
       | _ => false
       end.

Module dto.

Record ErrorResponse : Type := mkErrorResponse {
  Error : string;
  Message : string;
  Code : Z
}.

Definition NewErrorResponse (err message : string) (code : Z) : ErrorResponse :=
  {| Error := err; Message := message; Code := code |}.

Record StartSchedulerResponse : Type := mkStartSchedulerResponse {
  StartMessage : string;
  StartStatus : string
}.

Record StopSchedulerResponse : Type := mkStopSchedulerResponse {
  StopMessage : string;
  StopStatus : string
}.

(** The [Data] of the success responses modelled here. *)
Inductive Data : Type :=
  | NoData
  | StartData (r : StartSchedulerResponse)
  | StopData (r : StopSchedulerResponse).

Record SuccessResponse : Type := mkSuccessResponse {
  SuccessMessage : string;
  SuccessData : Data
}.

Definition NewSuccessResponse (message : string) (data : Data) : SuccessResponse :=
  {| SuccessMessage := message; SuccessData := data |}.

End dto.

(** What [c.JSON(code, body)] writes. *)
Inductive JSONBody : Type :=
  | ErrorBody (r : dto.ErrorResponse)
  | SuccessBody (r : dto.SuccessResponse).

Definition StatusOK : Z := 200.
Definition StatusBadRequest : Z := 400.
Definition StatusNotFound : Z := 404.
Definition StatusInternalServerError : Z := 500.

Module SchedulerHandler.

Definition StartScheduler (env : StartEnv) (uc : schedulerUseCaseImpl)
  : State (Z * JSONBody * schedulerUseCaseImpl) :=
  r <- StartScheduler env uc ;;
  match r.1 with
  | Some err =>
      if errors_Is err ErrSchedulerAlreadyRunning then
        ret (StatusBadRequest,
             ErrorBody (dto.NewErrorResponse "already_running"
                          "Scheduler is already running" StatusBadRequest), r.2)
      else
        logf ErrorLevel "Failed to start scheduler" ;;
        ret (StatusInternalServerError,
             ErrorBody (dto.NewErrorResponse "internal_error"
                          "Failed to start scheduler" StatusInternalServerError), r.2)
  | None =>
      let response := {| dto.StartMessage := "Scheduler started successfully";
                         dto.StartStatus := "running" |} in
      ret (StatusOK,
           SuccessBody (dto.NewSuccessResponse "Scheduler started successfully"
                          (dto.StartData response)), r.2)
  end.

Definition StopScheduler (stop_cache_err : option error) (uc : schedulerUseCaseImpl)
  : State (Z * JSONBody * schedulerUseCaseImpl) :=
  r <- StopScheduler stop_cache_err uc ;;
  match r.1 with
  | Some err =>
      if errors_Is err ErrSchedulerNotRunning then
        ret (StatusBadRequest,
             ErrorBody (dto.NewErrorResponse "not_running"
                          "Scheduler is not running" StatusBadRequest), r.2)
      else
        logf ErrorLevel "Failed to stop scheduler" ;;
        ret (StatusInternalServerError,
             ErrorBody (dto.NewErrorResponse "internal_error"
                          "Failed to stop scheduler" StatusInternalServerError), r.2)
  | None =>
      let response := {| dto.StopMessage := "Scheduler stopped successfully";
                         dto.StopStatus := "stopped" |} in
      ret (StatusOK,
           SuccessBody (dto.NewSuccessResponse "Scheduler stopped successfully"
                          (dto.StopData response)), r.2)
  end.

End SchedulerHandler.

(** What the outside world answers during the handler's [SendMessage]: what
    [uuid.Parse] makes of the path parameter (the identifier, or nothing
    when it is not a UUID), the database's answer to the read, and the
    answers to the send. *)
Record HandlerSendEnv : Type := mkHandlerSendEnv {
  parsed_id : option string;
  get_outcome : RowOutcome;
  handler_send : SendEnv
}.

Module MessageHandler.

Definition SendMessage (env : HandlerSendEnv) : State (Z * JSONBody) :=
  match parsed_id env with
  | None =>
      ret (StatusBadRequest,
           ErrorBody (dto.NewErrorResponse "invalid_id"
                        "Invalid message ID format" StatusBadRequest))
  | Some id =>
      r <- GetMessageByID (get_outcome env) id ;;
      match r with
      | (_, Some err) =>
          if errors_Is err ErrMessageNotFound then
            ret (StatusNotFound,
                 ErrorBody (dto.NewErrorResponse "not_found"
                              "Message not found" StatusNotFound))
          else
            logf ErrorLevel "Failed to get message for sending" ;;
            ret (StatusInternalServerError,
                 ErrorBody (dto.NewErrorResponse "internal_error"
                              "Failed to get message" StatusInternalServerError))
      | (None, None) =>
          (* a nil message with a nil error, which [GetMessageByID] does not
             return: the nil dereference panics and the recovery middleware
             answers *)
          ret (StatusInternalServerError,
               ErrorBody (dto.NewErrorResponse "internal_error"
                            "Internal server error occurred" StatusInternalServerError))
      | (Some message, None) =>
          if negb (IsPending message) then
            ret (StatusBadRequest,
                 ErrorBody (dto.NewErrorResponse "invalid_status"
                              "Message is not in pending status" StatusBadRequest))
          else
            s <- SendMessage (handler_send env) message ;;
            match s.2 with
            | Some err =>
                logf ErrorLevel "Failed to send message" ;;
                ret (StatusInternalServerError,
                     ErrorBody (dto.NewErrorResponse "send_error"
                                  "Failed to send message" StatusInternalServerError))
            | None =>
                ret (StatusOK,
                     SuccessBody (dto.NewSuccessResponse "Message sent successfully"
                                    dto.NoData))
            end
      end
  end.

End MessageHandler.

Definition send_request (id : string) : HandlerSendEnv :=
  {| parsed_id := Some id; get_outcome := RowOk; handler_send := good_send |}.

(** The cron instance holds the scheduler's entry, and runs, exactly while
    the scheduler is running. *)
Definition cron_matches (uc : schedulerUseCaseImpl) : Prop :=
  if isRunning uc
  then cron.running (cron uc) = true ∧ cron.entries (cron uc) = [entryID uc]
  else cron.running (cron uc) = false ∧ cron.entries (cron uc) = [].

(** Start, stop, start again. *)
Definition restarted : list Event :=
  [EvStart start_ok; EvStop None; EvStart start_ok].
(** * Properties *)

(** ** Validation *)

Lemma text_of_length_len n : len (text_of_length n) = Z.of_nat n.
Proof. unfold len. induction n; simpl; [done | lia]. Qed.

Lemma eqb_empty_true s : s = "" → String.eqb s "" = true.
Proof. intros ->. reflexivity. Qed.

Lemma eqb_empty_false s : s ≠ "" → String.eqb s "" = false.
Proof. intros H. by apply String.eqb_neq. Qed.

Lemma len_empty : len "" = 0.
Proof. reflexivity. Qed.

Lemma Validate_empty_content m :
  Content m = "" → Validate m = Some ErrInvalidMessageContent.
Proof. intros H. unfold Validate. by rewrite (eqb_empty_true _ H). Qed.

Lemma Validate_too_long m :
  160 < len (Content m) → Validate m = Some ErrMessageTooLong.
Proof.
  intros H. unfold Validate.
  destruct (String.eqb_spec (Content m) "") as [E | _].
  - rewrite E, len_empty in H. lia.
  - by rewrite (proj2 (Z.ltb_lt _ _) H).
Qed.

(** C4: [Validate] fails with the empty-content error on an empty content,
    with the too-long error on a content of more than 160 bytes, with the
    empty-destination error on an empty phone number (the content being
    acceptable), and succeeds otherwise; a content of exactly 160 bytes is
    accepted. *)
Theorem Validate_cases (m : Message) :
  (Content m = "" → Validate m = Some ErrInvalidMessageContent) ∧
  (160 < len (Content m) → Validate m = Some ErrMessageTooLong) ∧
  (Content m ≠ "" → len (Content m) ≤ 160 → PhoneNumber m = "" →
     Validate m = Some ErrInvalidPhoneNumber) ∧
  (Content m ≠ "" → len (Content m) ≤ 160 → PhoneNumber m ≠ "" →
     Validate m = None) ∧
  (len (Content m) = 160 → PhoneNumber m ≠ "" → Validate m = None).
Proof.
  repeat split; [apply Validate_empty_content | apply Validate_too_long | ..];
    unfold Validate.
  - intros Hc Hl Hp. rewrite (eqb_empty_false _ Hc), (eqb_empty_true _ Hp).
    by rewrite (proj2 (Z.ltb_ge _ _) Hl).
  - intros Hc Hl Hp. rewrite (eqb_empty_false _ Hc), (eqb_empty_false _ Hp).
    by rewrite (proj2 (Z.ltb_ge _ _) Hl).
  - intros Hl Hp.
    destruct (String.eqb_spec (Content m) "") as [E | _].
    + rewrite E, len_empty in Hl. lia.
    + rewrite (eqb_empty_false _ Hp).
      by rewrite (proj2 (Z.ltb_ge 160 (len (Content m))) ltac:(lia)).
Qed.

Lemma Validate_cases_witness :
  len (Content message_160) = 160 ∧ Validate message_160 = None.
Proof.
  split; [apply text_of_length_len |].
  apply (Validate_cases message_160); [apply text_of_length_len | discriminate].
Defined.

(** C10: [Validate] returns the error of the earliest violated rule in the
    order empty content, content length, empty destination; so a message
    with an empty content and an empty destination gets the empty-content
    error, and a message that is too long and has no destination gets the
    too-long error. *)
Theorem Validate_precedence (m : Message) :
  Validate m = earliest_violation m ∧
  (Content m = "" → PhoneNumber m = "" →
     Validate m = Some ErrInvalidMessageContent) ∧
  (160 < len (Content m) → PhoneNumber m = "" →
     Validate m = Some ErrMessageTooLong).
Proof.
  split; [| split].
  - unfold Validate, earliest_violation, validation_rules, violates. simpl.
    destruct (String.eqb_spec (Content m) "") as [E | E].
    + by rewrite bool_decide_eq_true_2.
    + rewrite (bool_decide_eq_false_2 _ E).
      destruct (Z.ltb_spec 160 (len (Content m))) as [L | L].
      * by rewrite bool_decide_eq_true_2.
      * rewrite (bool_decide_eq_false_2 (160 < _)) by lia.
        destruct (String.eqb_spec (PhoneNumber m) "") as [P | P].
        -- by rewrite bool_decide_eq_true_2.
        -- by rewrite bool_decide_eq_false_2.
  - intros H _. by apply Validate_empty_content.
  - intros H _. by apply Validate_too_long.
Qed.

Lemma Validate_precedence_witness :
  Validate message_empty_both = Some ErrInvalidMessageContent.
Proof.
  by apply (proj1 (proj2 (Validate_precedence message_empty_both))).
Defined.

(** ** Sending one message *)

Ltac unfold_state :=
  unfold bind, ret, logf, when_err, external.SendMessage, Repo.Update,
    Repo.exec_update, Cache.SetMessageSent, Cache.SetSchedulerStatus, Cache.Set_ in *.

Lemma rowsAffected_zero m table :
  Repo.rowsAffected m table = 0 ↔ ID m ∉ map ID table.
Proof.
  unfold Repo.rowsAffected. induction table as [| r table IH]; simpl.
  - split; [intros _; apply not_elem_of_nil | done].
  - rewrite not_elem_of_cons. destruct (String.eqb_spec (ID r) (ID m)) as [E | E]; simpl.
    + split; [lia | intros [H _]; congruence].
    + rewrite IH. split; [intros H; split; [congruence | done] | tauto].
Qed.

Lemma update_row_ID m r : ID (Repo.update_row m r) = ID r.
Proof. unfold Repo.update_row. by destruct (String.eqb _ _). Qed.

Lemma map_update_row_ID m table : map ID (map (Repo.update_row m) table) = map ID table.
Proof. rewrite map_map. apply map_ext. intros r. apply update_row_ID. Qed.

(** Every path through [SendMessage]: the reply, the status in it, the
    answer to the update, whether a row was hit, the cache and its answer. *)
Ltac send_cases env w :=
  unfold SendMessage; unfold_state;
  destruct (api_reply env) as [response | response err]; simpl;
  [ destruct (String.eqb (external.Status response) "sent"); simpl |];
  destruct (update_outcome env); unfold_state; simpl;
  repeat match goal with
  | |- context [Repo.rowsAffected ?m ?t =? 0] =>
      let E := fresh "E" in
      destruct (Z.eqb_spec (Repo.rowsAffected m t) 0) as [E | E]; unfold_state; simpl
  | |- context [bool_decide (is_Some (cacheRepo ?w))] =>
      destruct (cacheRepo w); unfold_state; simpl
  | |- context [cache_err ?e] => destruct (cache_err e); unfold_state; simpl
  end.

Lemma SendMessage_api_calls env m w :
  api_calls (SendMessage env m w).2 = api_calls w ++ [request_of m].
Proof. send_cases env w; reflexivity. Qed.

Lemma SendMessage_ids env m w :
  map ID (rows (SendMessage env m w).2) = map ID (rows w).
Proof. send_cases env w; try reflexivity; apply map_update_row_ID. Qed.

Lemma SendMessage_log env m w :
  log w `prefix_of` log (SendMessage env m w).2.
Proof.
  send_cases env w; rewrite <- ?(assoc_L (++)); by apply prefix_app_r.
Qed.

Lemma logs_during_extend w w1 w2 line :
  logs_during w w1 line → log w1 `prefix_of` log w2 → logs_during w w2 line.
Proof.
  intros (k & E & Hin) [k2 E2]. exists (k ++ k2). split.
  - by rewrite E2, E, <- (assoc_L (++)).
  - apply elem_of_app. by left.
Qed.

Lemma logs_during_later w w1 w2 line :
  log w `prefix_of` log w1 → logs_during w1 w2 line → logs_during w w2 line.
Proof.
  intros [k1 E1] (k & E & Hin). exists (k1 ++ k). split.
  - by rewrite E, E1, <- (assoc_L (++)).
  - apply elem_of_app. by right.
Qed.

(** [SendMessage] returns nil exactly when the send is acknowledged, the
    update is executed and it hits the message's row. *)
Lemma SendMessage_nil_iff env m w :
  (SendMessage env m w).1.2 = None ↔
  delivered env = true ∧ ID m ∈ map ID (rows w).
Proof.
  unfold delivered.
  send_cases env w;
    try (apply rowsAffected_zero in E; simpl in E);
    try (assert (ID m ∈ map ID (rows w))
           by (destruct (decide (ID m ∈ map ID (rows w))) as [|N]; [done |];
               by apply rowsAffected_zero in N));
    split; try done; try (by intros [? ?]).
Qed.

Lemma SendMessage_not_acked env m w :
  acked_sent (api_reply env) = false →
  let r := (SendMessage env m w).1 in
  is_Some r.2 ∧ Status r.1 = MessageStatusFailed ∧ is_Some (ErrorMessage r.1).
Proof.
  intros H. revert H. send_cases env w; intros H; try discriminate; eauto.
Qed.

Lemma SendMessage_acked env m w :
  acked_sent (api_reply env) = true →
  let r := (SendMessage env m w).1 in
  Status r.1 = MessageStatusSent ∧
  (is_Some r.2 →
   logs_during w (SendMessage env m w).2
     (ErrorLevel, "Failed to update message status after successful send")).
Proof.
  intros H. revert H. send_cases env w; intros H; try discriminate;
    (split; [done |]); intros [? ?]; try discriminate;
    (eexists; split; [by rewrite <- (assoc_L (++)) |]);
    apply elem_of_app; right; by apply list_elem_of_singleton.
Qed.

(** The returned message, the error, the rows and the API requests do not
    depend on the cache or on its answer. *)
Lemma SendMessage_same_but_cache e1 e2 m w1 w2 :
  same_but_cache e1 e2 → rows w1 = rows w2 →
  (SendMessage e1 m w1).1 = (SendMessage e2 m w2).1 ∧
  rows (SendMessage e1 m w1).2 = rows (SendMessage e2 m w2).2.
Proof.
  intros (Ha & Hn & Hu) Hr.
  unfold SendMessage; unfold_state. rewrite <- Ha, <- Hn, <- Hu.
  destruct (api_reply e1) as [response | response err]; simpl;
    [ destruct (String.eqb (external.Status response) "sent"); simpl |];
    destruct (update_outcome e1); unfold_state; simpl; rewrite <- ?Hr;
    repeat match goal with
    | |- context [Repo.rowsAffected ?m ?t =? 0] =>
        destruct (Z.eqb_spec (Repo.rowsAffected m t) 0); unfold_state; simpl
    | |- context [bool_decide (is_Some (cacheRepo ?w))] =>
        destruct (cacheRepo w); unfold_state; simpl
    | |- context [cache_err ?e] => destruct (cache_err e); unfold_state; simpl
    end; done.
Qed.

(** ** The loop over a batch *)

Lemma sendLoop_cons env i m rest c w :
  sendLoop env i (m :: rest) c w =
  let r := SendMessage (env i) m w in
  let r' := sendLoop env (S i) rest
              (match r.1.2 with Some _ => c | None => c + 1 end)
              (after_send_error r) in
  ((r.1.1 :: r'.1.1, r'.1.2), r'.2).
Proof.
  unfold after_send_error. simpl. unfold bind.
  destruct (SendMessage (env i) m w) as [[m' err] w1]. destruct err; simpl.
  - destruct (sendLoop env (S i) rest c _) as [[ms n] w2]. reflexivity.
  - destruct (sendLoop env (S i) rest (c + 1) w1) as [[ms n] w2]. reflexivity.
Qed.

Lemma after_send_error_rows r : rows (after_send_error r) = rows r.2.
Proof. unfold after_send_error. by destruct (r.1.2). Qed.

Lemma after_send_error_api_calls r : api_calls (after_send_error r) = api_calls r.2.
Proof. unfold after_send_error. by destruct (r.1.2). Qed.

Lemma after_send_error_log r : log r.2 `prefix_of` log (after_send_error r).
Proof.
  unfold after_send_error. destruct (r.1.2); simpl; [by apply prefix_app_r | done].
Qed.

Lemma sendLoop_api_calls env msgs : ∀ i c w,
  api_calls (sendLoop env i msgs c w).2 = api_calls w ++ map request_of msgs.
Proof.
  induction msgs as [| m rest IH]; intros i c w.
  - simpl. by rewrite app_nil_r.
  - rewrite sendLoop_cons. simpl. rewrite IH, after_send_error_api_calls,
      SendMessage_api_calls. by rewrite <- (assoc_L (++)).
Qed.

Lemma sendLoop_ids env msgs : ∀ i c w,
  map ID (rows (sendLoop env i msgs c w).2) = map ID (rows w).
Proof.
  induction msgs as [| m rest IH]; intros i c w; [done |].
  rewrite sendLoop_cons. simpl.
  by rewrite IH, after_send_error_rows, SendMessage_ids.
Qed.

Lemma sendLoop_log env msgs : ∀ i c w,
  log w `prefix_of` log (sendLoop env i msgs c w).2.
Proof.
  induction msgs as [| m rest IH]; intros i c w; [done |].
  rewrite sendLoop_cons. simpl.
  etrans; [apply SendMessage_log |]. etrans; [apply after_send_error_log |]. apply IH.
Qed.

Lemma sendLoop_length env msgs : ∀ i c w,
  length (sendLoop env i msgs c w).1.1 = length msgs.
Proof.
  induction msgs as [| m rest IH]; intros i c w; [done |].
  rewrite sendLoop_cons. simpl. by rewrite IH.
Qed.

Lemma sendLoop_count_bounds env msgs : ∀ i c w,
  c ≤ (sendLoop env i msgs c w).1.2 ≤ c + Z.of_nat (length msgs).
Proof.
  induction msgs as [| m rest IH]; intros i c w.
  - simpl. lia.
  - rewrite sendLoop_cons. cbn [fst snd length].
    destruct ((SendMessage (env i) m w).1.2);
      match goal with |- context [sendLoop env (S i) rest ?c' ?w'] =>
        specialize (IH (S i) c' w') end; lia.
Qed.

Lemma count_positions_S p env i n :
  count_positions p env i (S n) =
  (if p (env i) then 1 else 0) + count_positions p env (S i) n.
Proof.
  unfold count_positions. simpl. destruct (p (env i)); simpl; lia.
Qed.

(** The count returned by the loop: the messages whose send was acknowledged
    and whose row was updated. *)
Lemma sendLoop_count env msgs : ∀ i c w,
  (∀ m, m ∈ msgs → ID m ∈ map ID (rows w)) →
  (sendLoop env i msgs c w).1.2 =
  c + count_positions delivered env i (length msgs).
Proof.
  induction msgs as [| m rest IH]; intros i c w Hids.
  - simpl. unfold count_positions. simpl. lia.
  - rewrite sendLoop_cons. cbn [fst snd length]. rewrite count_positions_S.
    rewrite IH.
    + pose proof (SendMessage_nil_iff (env i) m w) as Hnil.
      destruct ((SendMessage (env i) m w).1.2) as [e |].
      * destruct (delivered (env i)) eqn:D; [| lia].
        destruct Hnil as [_ Hnil]. discriminate Hnil.
        split; [done |]. apply Hids. left.
      * destruct Hnil as [Hnil _]. destruct (Hnil eq_refl) as [-> _]. lia.
    + intros m' Hm'. rewrite after_send_error_rows, SendMessage_ids.
      apply Hids. by right.
Qed.

(** Each message of the batch is attempted once, and ends in memory as sent
    or as failed by what the delivery client said about it. *)
Lemma sendLoop_status env msgs : ∀ i c w j m',
  (sendLoop env i msgs c w).1.1 !! j = Some m' →
  if acked_sent (api_reply (env (i + j)%nat))
  then Status m' = MessageStatusSent
  else Status m' = MessageStatusFailed ∧ is_Some (ErrorMessage m').
Proof.
  induction msgs as [| m rest IH]; intros i c w j m'; [done |].
  rewrite sendLoop_cons. cbn [fst snd]. destruct j as [| j]; simpl.
  - intros [= <-]. rewrite Nat.add_0_r.
    destruct (acked_sent (api_reply (env i))) eqn:A.
    + by apply SendMessage_acked.
    + by apply SendMessage_not_acked.
  - intros H. apply IH in H. by replace (i + S j)%nat with (S i + j)%nat by lia.
Qed.

(** An acknowledged send whose update fails leaves its line in the log. *)
Lemma sendLoop_update_failure_logged env msgs : ∀ i c w j,
  (∀ m, m ∈ msgs → ID m ∈ map ID (rows w)) →
  (j < length msgs)%nat →
  acked_sent (api_reply (env (i + j)%nat)) = true →
  delivered (env (i + j)%nat) = false →
  logs_during w (sendLoop env i msgs c w).2
    (ErrorLevel, "Failed to update message status after successful send").
Proof.
  induction msgs as [| m rest IH]; intros i c w j Hids Hj Ha Hd; [simpl in Hj; lia |].
  rewrite sendLoop_cons. cbn [fst snd]. destruct j as [| j].
  - rewrite Nat.add_0_r in *.
    eapply logs_during_extend;
      [| etrans; [apply after_send_error_log | apply sendLoop_log]].
    apply SendMessage_acked; [done |].
    destruct ((SendMessage (env i) m w).1.2) eqn:E; [eauto |].
    apply SendMessage_nil_iff in E as [E _]. congruence.
  - replace (i + S j)%nat with (S i + j)%nat in * by lia.
    eapply logs_during_later;
      [etrans; [apply SendMessage_log | apply after_send_error_log] |].
    apply (IH (S i) _ _ j); [| simpl in Hj; lia | done | done].
    intros m' Hm'. rewrite after_send_error_rows, SendMessage_ids.
    apply Hids. by right.
Qed.

Lemma sendLoop_same_but_cache e1 e2 msgs : ∀ i c w1 w2,
  (∀ k, same_but_cache (e1 k) (e2 k)) → rows w1 = rows w2 →
  (sendLoop e1 i msgs c w1).1 = (sendLoop e2 i msgs c w2).1 ∧
  rows (sendLoop e1 i msgs c w1).2 = rows (sendLoop e2 i msgs c w2).2.
Proof.
  induction msgs as [| m rest IH]; intros i c w1 w2 He Hr; [done |].
  rewrite !sendLoop_cons. cbn [fst snd].
  destruct (SendMessage_same_but_cache (e1 i) (e2 i) m w1 w2 (He i) Hr) as [H1 H2].
  rewrite H1.
  match goal with
  | |- context [sendLoop e1 (S i) rest ?c' (after_send_error ?r1)] =>
      match goal with
      | |- context [sendLoop e2 (S i) rest c' (after_send_error ?r2)] =>
          destruct (IH (S i) c' (after_send_error r1) (after_send_error r2) He) as [H3 H4];
            [by rewrite !after_send_error_rows |]
      end
  end.
  by rewrite H3, H4.
Qed.

(** ** Fetching the batch *)

Global Instance created_le_trans : Transitive created_le.
Proof. unfold created_le. intros a b c. lia. Qed.

Global Instance created_le_total : Total created_le.
Proof. unfold created_le. intros a b. lia. Qed.

Lemma elem_of_filter_IsPending m table :
  m ∈ List.filter IsPending table ↔ m ∈ table ∧ Status m = MessageStatusPending.
Proof.
  rewrite !list_elem_of_In, filter_In. unfold IsPending.
  by rewrite bool_decide_eq_true.
Qed.

Lemma select_pending_split table limit :
  Repo.select_pending table limit
    ++ drop (Z.to_nat limit) (merge_sort created_le (List.filter IsPending table))
  ≡ₚ List.filter IsPending table.
Proof.
  unfold Repo.select_pending. rewrite take_drop. apply merge_sort_Permutation.
Qed.

Lemma select_pending_elem m table limit :
  m ∈ Repo.select_pending table limit →
  m ∈ table ∧ Status m = MessageStatusPending.
Proof.
  intros H. apply elem_of_filter_IsPending.
  rewrite <- (select_pending_split table limit). apply elem_of_app. by left.
Qed.

Lemma select_pending_length table limit :
  length (Repo.select_pending table limit) =
  Nat.min (Z.to_nat limit) (length (List.filter IsPending table)).
Proof.
  unfold Repo.select_pending.
  by rewrite length_take, (Permutation_length (merge_sort_Permutation _ _)).
Qed.

Lemma select_pending_sorted table limit :
  StronglySorted created_le (Repo.select_pending table limit).
Proof.
  unfold Repo.select_pending.
  eapply StronglySorted_app_1_l. rewrite take_drop.
  apply (StronglySorted_merge_sort created_le).
Qed.

Lemma select_pending_oldest table limit a b :
  a ∈ Repo.select_pending table limit →
  b ∈ drop (Z.to_nat limit) (merge_sort created_le (List.filter IsPending table)) →
  CreatedAt a ≤ CreatedAt b.
Proof.
  unfold Repo.select_pending. intros Ha Hb.
  eapply (StronglySorted_app_1_elem_of created_le); [| exact Ha | exact Hb].
  rewrite take_drop. apply (StronglySorted_merge_sort created_le).
Qed.

Lemma select_pending_ids table limit m :
  m ∈ Repo.select_pending table limit → ID m ∈ map ID table.
Proof.
  intros H. apply select_pending_elem in H as [H _].
  by apply (list_elem_of_fmap_2 ID).
Qed.

(** The fetch succeeds exactly when the database answers the query and the
    limit is not negative. *)
Lemma Repo_GetPendingMessages_ok f limit w :
  f = FetchOk → 0 ≤ limit →
  Repo.GetPendingMessages f limit w = ((Repo.select_pending (rows w) limit, None), w).
Proof.
  intros -> H. unfold Repo.GetPendingMessages.
  by rewrite (proj2 (Z.ltb_ge limit 0) H).
Qed.

Lemma Repo_GetPendingMessages_fails f limit w :
  ¬ (f = FetchOk ∧ 0 ≤ limit) →
  ∃ e, Repo.GetPendingMessages f limit w = (([], Some e), w).
Proof.
  intros H. unfold Repo.GetPendingMessages. destruct f; eauto.
  destruct (Z.ltb_spec limit 0); eauto. destruct H. split; [done | lia].
Qed.

(** ** The batch *)

Lemma ProcessPendingMessages_unfold env n w :
  ProcessPendingMessages env n w =
  let w0 := (logf InfoLevel "Processing pending messages" w).2 in
  let r := (Repo.GetPendingMessages (fetch env) n w).1 in
  match r.2 with
  | Some err =>
      ((0, Some err), (logf ErrorLevel "Failed to get pending messages" w0).2)
  | None =>
      if Z.of_nat (length r.1) =? 0
      then ((0, None), (logf DebugLevel "No pending messages to process" w0).2)
      else
        let r' := sendLoop (sends env) 0 r.1 0 w0 in
        ((r'.1.2, None), (logf InfoLevel "Batch processing completed" r'.2).2)
  end.
Proof.
  unfold ProcessPendingMessages, GetPendingMessages, Repo.GetPendingMessages, bind.
  destruct (fetch env); [destruct (n <? 0) |..]; simpl; try reflexivity.
  destruct (Z.of_nat (length (Repo.select_pending (rows w) n)) =? 0); simpl;
    [reflexivity |].
  match goal with |- context [sendLoop ?e 0%nat ?ms 0 ?w'] =>
    destruct (sendLoop e 0%nat ms 0 w') as [[ms' c] w''] end.
  reflexivity.
Qed.

Lemma processed_messages_unfold env n w :
  fetch env = FetchOk → 0 ≤ n →
  processed_messages env n w =
  (sendLoop (sends env) 0 (Repo.select_pending (rows w) n) 0 w).1.1.
Proof.
  intros Hf Hn. unfold processed_messages, GetPendingMessages, bind.
  rewrite (Repo_GetPendingMessages_ok _ _ _ Hf Hn). reflexivity.
Qed.

(** With the fetch answered, the batch is the loop over the selected rows. *)
Lemma ProcessPendingMessages_ok env n w :
  fetch env = FetchOk → 0 ≤ n →
  let batch := Repo.select_pending (rows w) n in
  let w0 := (logf InfoLevel "Processing pending messages" w).2 in
  let r' := sendLoop (sends env) 0 batch 0 w0 in
  (ProcessPendingMessages env n w).1 = (r'.1.2, None) ∧
  api_calls (ProcessPendingMessages env n w).2 = api_calls r'.2 ∧
  rows (ProcessPendingMessages env n w).2 = rows r'.2 ∧
  log r'.2 `prefix_of` log (ProcessPendingMessages env n w).2.
Proof.
  intros Hf Hn. cbv zeta. rewrite ProcessPendingMessages_unfold. cbv zeta.
  rewrite (Repo_GetPendingMessages_ok _ _ _ Hf Hn). cbn [fst snd].
  destruct (Z.eqb_spec (Z.of_nat (length (Repo.select_pending (rows w) n))) 0) as [E | E].
  - assert (Repo.select_pending (rows w) n = []) as ->
      by (apply length_zero_iff_nil; lia).
    simpl. repeat split; by apply prefix_app_r.
  - simpl. repeat split; by apply prefix_app_r.
Qed.

Lemma ProcessPendingMessages_fetch_fails env n w :
  ¬ (fetch env = FetchOk ∧ 0 ≤ n) →
  ∃ e, (ProcessPendingMessages env n w).1 = (0, Some e) ∧
       (Repo.GetPendingMessages (fetch env) n w).1.2 = Some e ∧
       rows (ProcessPendingMessages env n w).2 = rows w ∧
       api_calls (ProcessPendingMessages env n w).2 = api_calls w.
Proof.
  intros H. rewrite ProcessPendingMessages_unfold. cbv zeta.
  destruct (Repo_GetPendingMessages_fails _ _ w H) as [e ->]. simpl. eauto.
Qed.

Lemma ProcessPendingMessages_count_bounds env n w :
  0 ≤ (ProcessPendingMessages env n w).1.1.
Proof.
  destruct (decide (fetch env = FetchOk ∧ 0 ≤ n)) as [[Hf Hn] | H].
  - destruct (ProcessPendingMessages_ok env n w Hf Hn) as [-> _]. simpl.
    apply sendLoop_count_bounds.
  - destruct (ProcessPendingMessages_fetch_fails env n w H) as (e & -> & _). done.
Qed.

(** *** What a failed delivery leaves in the store *)

Lemma SendMessage_rows env m w :
  rows (SendMessage env m w).2 =
  match update_outcome env with
  | ExecFails _ => rows w
  | _ => map (Repo.update_row (SendMessage env m w).1.1) (rows w)
  end.
Proof. send_cases env w; reflexivity. Qed.

Lemma update_row_other m r : ID r ≠ ID m → Repo.update_row m r = r.
Proof.
  intros H. unfold Repo.update_row. by rewrite (proj2 (String.eqb_neq _ _) H).
Qed.

Lemma SendMessage_result_ID env m w : ID (SendMessage env m w).1.1 = ID m.
Proof. send_cases env w; reflexivity. Qed.

(** A send touches only the rows of its message. *)
Lemma SendMessage_rows_other env m w r :
  r ∈ rows (SendMessage env m w).2 → ID r ≠ ID m → r ∈ rows w.
Proof.
  rewrite SendMessage_rows. intros Hr Hne.
  destruct (update_outcome env); try done;
    apply list_elem_of_fmap in Hr as (r0 & -> & Hr0);
    rewrite update_row_ID in Hne;
    rewrite update_row_other; try done; by rewrite SendMessage_result_ID.
Qed.

Lemma sendLoop_rows_other env msgs : ∀ i c w r,
  r ∈ rows (sendLoop env i msgs c w).2 →
  (∀ m, m ∈ msgs → ID r ≠ ID m) → r ∈ rows w.
Proof.
  induction msgs as [| m rest IH]; intros i c w r Hr Hne; [done |].
  rewrite sendLoop_cons in Hr. cbn [fst snd] in Hr.
  apply IH in Hr; [| intros m' Hm'; apply Hne; by right].
  rewrite after_send_error_rows in Hr.
  apply SendMessage_rows_other in Hr; [done |]. apply Hne. by left.
Qed.

(** A failed delivery whose update is executed is persisted as failed. *)
Lemma SendMessage_failure_persisted env m w r :
  acked_sent (api_reply env) = false → update_outcome env = ExecOk →
  r ∈ rows (SendMessage env m w).2 → ID r = ID m →
  Status r = MessageStatusFailed ∧ is_Some (ErrorMessage r).
Proof.
  intros Ha Hu. rewrite SendMessage_rows, Hu. intros Hr Hid.
  apply list_elem_of_fmap in Hr as (r0 & -> & Hr0).
  rewrite update_row_ID in Hid.
  destruct (SendMessage_not_acked env m w Ha) as (_ & Hs & He).
  unfold Repo.update_row. rewrite SendMessage_result_ID.
  by rewrite (proj2 (String.eqb_eq _ _) Hid).
Qed.

Lemma sendLoop_failure_persisted env msgs : ∀ i c w j m r,
  NoDup (map ID msgs) → msgs !! j = Some m →
  acked_sent (api_reply (env (i + j)%nat)) = false →
  update_outcome (env (i + j)%nat) = ExecOk →
  r ∈ rows (sendLoop env i msgs c w).2 → ID r = ID m →
  Status r = MessageStatusFailed ∧ is_Some (ErrorMessage r).
Proof.
  induction msgs as [| m0 rest IH]; intros i c w j m r Hnd Hj Ha Hu Hr Hid; [done |].
  rewrite sendLoop_cons in Hr. cbn [fst snd] in Hr.
  simpl in Hnd. apply NoDup_cons in Hnd as [Hnotin Hnd].
  destruct j as [| j]; simpl in Hj.
  - injection Hj as ->. rewrite Nat.add_0_r in *.
    apply sendLoop_rows_other in Hr.
    + rewrite after_send_error_rows in Hr.
      by apply (SendMessage_failure_persisted (env i) m w r).
    + intros m' Hm' E. apply Hnotin. rewrite <- Hid, E.
      by apply (list_elem_of_fmap_2 ID).
  - replace (i + S j)%nat with (S i + j)%nat in * by lia.
    by apply (IH (S i) _ _ j m r Hnd Hj Ha Hu Hr).
Qed.

Lemma filter_IsPending_sublist table :
  List.filter IsPending table `sublist_of` table.
Proof.
  induction table as [| r t IH]; simpl; [done |].
  destruct (IsPending r); by constructor.
Qed.

Lemma select_pending_NoDup table limit :
  NoDup (map ID table) → NoDup (map ID (Repo.select_pending table limit)).
Proof.
  intros H. unfold Repo.select_pending.
  eapply sublist_NoDup; [| apply (fmap_sublist ID), sublist_take].
  change (NoDup (ID <$> merge_sort created_le (List.filter IsPending table))).
  rewrite merge_sort_Permutation.
  eapply sublist_NoDup; [exact H |].
  apply (fmap_sublist ID), filter_IsPending_sublist.
Qed.

(** C1, as the code has it: with the fetch answered, every message of the
    batch is attempted, an acknowledged send whose update fails is logged
    and the loop goes on, and the returned count is the number of messages
    whose send was acknowledged as sent and whose update returned no error;
    a message sent but not persisted is not counted. *)
Theorem ProcessPendingMessages_counts_persisted_sends env n w :
  fetch env = FetchOk → 0 ≤ n →
  let batch := Repo.select_pending (rows w) n in
  let r := ProcessPendingMessages env n w in
  r.1 = (count_positions delivered (sends env) 0 (length batch), None) ∧
  api_calls r.2 = api_calls w ++ map request_of batch ∧
  (∀ j, (j < length batch)%nat →
        acked_sent (api_reply (sends env j)) = true →
        delivered (sends env j) = false →
        logs_during w r.2
          (ErrorLevel, "Failed to update message status after successful send")).
Proof.
  intros Hf Hn batch r.
  destruct (ProcessPendingMessages_ok env n w Hf Hn) as (H1 & H2 & _ & H4).
  fold batch in H1, H2, H4. fold r in H1, H2, H4.
  assert (Hids : ∀ m, m ∈ batch →
            ID m ∈ map ID (rows (logf InfoLevel "Processing pending messages" w).2)).
  { intros m Hm. simpl. by apply select_pending_ids in Hm. }
  split; [| split].
  - by rewrite H1, sendLoop_count.
  - by rewrite H2, sendLoop_api_calls.
  - intros j Hj Ha Hd.
    apply (logs_during_later w (logf InfoLevel "Processing pending messages" w).2);
      [by apply prefix_app_r |].
    eapply logs_during_extend; [| exact H4].
    by apply (sendLoop_update_failure_logged _ _ 0%nat _ _ j).
Qed.

Lemma ProcessPendingMessages_counts_persisted_sends_witness :
  (ProcessPendingMessages first_send_fails 3 three_pending).1 = (2, None).
Proof.
  pose proof (ProcessPendingMessages_counts_persisted_sends
                first_send_fails 3 three_pending eq_refl ltac:(lia)) as [H _].
  exact H.
Defined.

(** C1, as stated, fails: one pending message, the send acknowledged as
    sent, the update refused by the database; one delivery was acknowledged
    and the returned count is 0. *)
Lemma unpersisted_send_not_counted :
  count_positions (λ e, acked_sent (api_reply e)) (sends update_fails) 0
    (length (Repo.select_pending (rows one_pending) 1)) = 1 ∧
  (ProcessPendingMessages update_fails 1 one_pending).1 = (0, None) ∧
  (ProcessPendingMessages update_fails 1 one_pending).1.1 ≠
    count_positions (λ e, acked_sent (api_reply e)) (sends update_fails) 0
      (length (Repo.select_pending (rows one_pending) 1)).
Proof. vm_compute. repeat split; discriminate. Qed.

(** C2: with no eligible pending message the call returns (0, nil); the
    error it returns is the error of the fetch, so it is non-nil only when
    the fetch fails; and when the fetch is answered every message of the
    batch is attempted, whatever happened to the ones before it, a message
    whose delivery fails (transport error or an acknowledgement other than
    sent) ending as failed with an error text, in memory and, when its
    update is executed and the identifiers of the store are distinct, in
    the store. *)
Theorem ProcessPendingMessages_errors env n w :
  let r := ProcessPendingMessages env n w in
  (fetch env = FetchOk → 0 ≤ n → List.filter IsPending (rows w) = [] →
     r.1 = (0, None)) ∧
  r.1.2 = (Repo.GetPendingMessages (fetch env) n w).1.2 ∧
  (is_Some r.1.2 ↔ ¬ (fetch env = FetchOk ∧ 0 ≤ n)) ∧
  (fetch env = FetchOk → 0 ≤ n →
     let batch := Repo.select_pending (rows w) n in
     api_calls r.2 = api_calls w ++ map request_of batch ∧
     length (processed_messages env n w) = length batch ∧
     (∀ j m', processed_messages env n w !! j = Some m' →
              acked_sent (api_reply (sends env j)) = false →
              Status m' = MessageStatusFailed ∧ is_Some (ErrorMessage m')) ∧
     (NoDup (map ID (rows w)) →
      ∀ j m row, batch !! j = Some m →
                 acked_sent (api_reply (sends env j)) = false →
                 update_outcome (sends env j) = ExecOk →
                 row ∈ rows r.2 → ID row = ID m →
                 Status row = MessageStatusFailed ∧ is_Some (ErrorMessage row))).
Proof.
  intros r. subst r.
  destruct (decide (fetch env = FetchOk ∧ 0 ≤ n)) as [[Hf Hn] | H].
  - destruct (ProcessPendingMessages_ok env n w Hf Hn) as (H1 & H2 & H3 & _).
    rewrite H1, H2, H3, (Repo_GetPendingMessages_ok _ _ _ Hf Hn). cbn [fst snd].
    split; [| split; [| split]].
    + intros _ _ E.
      assert (Repo.select_pending (rows w) n = []) as ->; [| done].
      unfold Repo.select_pending. rewrite E. apply take_nil.
    + done.
    + split; [intros [? ?]; done | intros N; by destruct N].
    + intros _ _. cbv zeta. rewrite processed_messages_unfold by done.
      split; [| split; [| split]].
      * by rewrite sendLoop_api_calls.
      * apply sendLoop_length.
      * intros j m' H Ha. apply sendLoop_status in H. simpl in H.
        by rewrite Ha in H.
      * intros Hnd j m row Hj Ha Hu Hrow Hid.
        apply (sendLoop_failure_persisted (sends env)
                 (Repo.select_pending (rows w) n) 0%nat 0
                 (logf InfoLevel "Processing pending messages" w).2 j m row);
          try done.
        by apply select_pending_NoDup.
  - destruct (ProcessPendingMessages_fetch_fails env n w H) as (e & -> & -> & _).
    simpl. repeat split; try done; try (intros; exfalso; by apply H).
Qed.

Lemma ProcessPendingMessages_errors_witness :
  (ProcessPendingMessages first_send_fails 3 three_pending).1.2 = None ∧
  (map Status (processed_messages first_send_fails 3 three_pending)
   = [MessageStatusFailed; MessageStatusSent; MessageStatusSent]).
Proof.
  pose proof (ProcessPendingMessages_errors first_send_fails 3 three_pending)
    as (_ & H & _).
  split; [exact H | reflexivity].
Defined.

(** C3: with the fetch answered and a positive batch size N, the messages
    attempted are rows of the store in pending status, oldest first; they
    are min(M, N) of the M pending rows, so all M when M < N and N when
    M > N, and none of the pending rows left out is older than an attempted
    one. *)
Theorem ProcessPendingMessages_attempts_oldest env N w :
  0 < N → fetch env = FetchOk →
  let pending := List.filter IsPending (rows w) in
  let M := Z.of_nat (length pending) in
  let attempted := Repo.select_pending (rows w) N in
  api_calls (ProcessPendingMessages env N w).2
    = api_calls w ++ map request_of attempted ∧
  (∀ a, a ∈ attempted → a ∈ rows w ∧ Status a = MessageStatusPending) ∧
  StronglySorted created_le attempted ∧
  Z.of_nat (length attempted) = Z.min M N ∧
  (M < N → Z.of_nat (length attempted) = M) ∧
  (M > N → Z.of_nat (length attempted) = N) ∧
  ∃ rest, attempted ++ rest ≡ₚ pending ∧
          ∀ a b, a ∈ attempted → b ∈ rest → CreatedAt a ≤ CreatedAt b.
Proof.
  intros HN Hf pending M attempted.
  assert (Hlen : Z.of_nat (length attempted) = Z.min M N).
  { subst attempted M pending. rewrite select_pending_length. lia. }
  destruct (ProcessPendingMessages_ok env N w Hf ltac:(lia)) as (_ & H2 & _).
  split; [| split; [| split; [| split; [| split; [| split]]]]].
  - by rewrite H2, sendLoop_api_calls.
  - intros a Ha. by apply select_pending_elem in Ha.
  - apply select_pending_sorted.
  - done.
  - lia.
  - lia.
  - eexists. split; [apply select_pending_split |].
    intros a b. apply select_pending_oldest.
Qed.

Lemma ProcessPendingMessages_attempts_oldest_witness :
  api_calls (ProcessPendingMessages all_good 2 three_pending).2
  = map request_of [sample_message "a" 10; sample_message "b" 20].
Proof.
  pose proof (ProcessPendingMessages_attempts_oldest all_good 2 three_pending
                ltac:(lia) eq_refl) as [H _].
  exact H.
Defined.

(** ** Scheduler: start, stop, status *)

Lemma StartScheduler_running env uc w :
  isRunning uc = true →
  StartScheduler env uc w = ((Some ErrSchedulerAlreadyRunning, uc), w).
Proof. intros H. unfold StartScheduler. by rewrite H. Qed.

Lemma StopScheduler_stopped e uc w :
  isRunning uc = false →
  StopScheduler e uc w = ((Some ErrSchedulerNotRunning, uc), w).
Proof. intros H. unfold StopScheduler. by rewrite H. Qed.

(** What a successful stop returns, whatever the cache answers. *)
Lemma StopScheduler_running e uc w :
  isRunning uc = true →
  (StopScheduler e uc w).1 =
  (None, {| config := config uc;
            cron := cron.Stop (cron.Remove (entryID uc) (cron uc));
            entryID := entryID uc; isRunning := false; lastRun := lastRun uc;
            nextRun := None; sentCount := sentCount uc |}) ∧
  rows (StopScheduler e uc w).2 = rows w ∧
  api_calls (StopScheduler e uc w).2 = api_calls w.
Proof.
  intros H. unfold StopScheduler. rewrite H. simpl.
  unfold cache_scheduler_status. unfold_state. simpl.
  destruct (cacheRepo w); simpl; [destruct e; simpl |]; done.
Qed.

(** What a start on a stopped scheduler returns, whatever the cache answers. *)
Lemma StartScheduler_stopped env uc w :
  isRunning uc = false →
  (StartScheduler env uc w).1 =
  match parse_err env with
  | Some err => (Some err, uc)
  | None =>
      (None, {| config := config uc;
                cron := cron.Start (cron.AddFunc None (cron uc)).2;
                entryID := (cron.AddFunc None (cron uc)).1.1;
                isRunning := true; lastRun := lastRun uc;
                nextRun := Some (start_now env); sentCount := sentCount uc |})
  end.
Proof.
  intros H. unfold StartScheduler. rewrite H.
  destruct (parse_err env) as [err |]; simpl; [done |].
  unfold cache_scheduler_status. unfold_state. simpl.
  destruct (cacheRepo w); simpl; [destruct (start_cache_err env); simpl |]; done.
Qed.

Lemma StartScheduler_nil_running env uc w :
  (StartScheduler env uc w).1.1 = None →
  isRunning (StartScheduler env uc w).1.2 = true.
Proof.
  destruct (isRunning uc) eqn:R.
  - by rewrite StartScheduler_running.
  - rewrite (StartScheduler_stopped env uc w R).
    by destruct (parse_err env).
Qed.

(** C6: a start on a running scheduler returns the already-running error
    and a stop on a stopped one the not-running error, each leaving the
    scheduler and its collaborators as they were; so a second start after a
    successful one fails and the status still reports running. *)
Theorem control_errors_leave_state :
  (∀ env uc w, isRunning uc = true →
     StartScheduler env uc w = ((Some ErrSchedulerAlreadyRunning, uc), w) ∧
     SchedulerInfo.IsRunning (GetSchedulerStatus (StartScheduler env uc w).1.2).1 = true) ∧
  (∀ e uc w, isRunning uc = false →
     StopScheduler e uc w = ((Some ErrSchedulerNotRunning, uc), w)) ∧
  (∀ env1 env2 uc w,
     let r1 := StartScheduler env1 uc w in
     r1.1.1 = None →
     SchedulerInfo.IsRunning (GetSchedulerStatus r1.1.2).1 = true ∧
     StartScheduler env2 r1.1.2 r1.2 = ((Some ErrSchedulerAlreadyRunning, r1.1.2), r1.2)).
Proof.
  split; [| split].
  - intros env uc w H. rewrite (StartScheduler_running env uc w H). split; [done |].
    unfold SchedulerInfo.IsRunning. simpl. by rewrite H.
  - intros e uc w H. by apply StopScheduler_stopped.
  - intros env1 env2 uc w r1 H. apply StartScheduler_nil_running in H.
    fold r1 in H. split.
    + unfold SchedulerInfo.IsRunning. simpl. by rewrite H.
    + by apply StartScheduler_running.
Qed.

Lemma control_errors_leave_state_witness :
  StartScheduler start_ok running_scheduler (sample_world [])
  = ((Some ErrSchedulerAlreadyRunning, running_scheduler), sample_world []) ∧
  StopScheduler None (NewSchedulerUseCase sample_config) (sample_world [])
  = ((Some ErrSchedulerNotRunning, NewSchedulerUseCase sample_config), sample_world []).
Proof.
  destruct control_errors_leave_state as (H1 & H2 & _). split.
  - apply (H1 start_ok running_scheduler (sample_world []) eq_refl).
  - apply (H2 None (NewSchedulerUseCase sample_config) (sample_world []) eq_refl).
Defined.

(** C7: a stop on a running scheduler returns no error, and the status
    after it reports stopped, no next tick, and the last tick, the
    cumulative count, the interval and the batch size it reported before;
    the store and the delivery API are not touched. *)
Theorem StopScheduler_frame e uc w :
  isRunning uc = true →
  let r := StopScheduler e uc w in
  let before := (GetSchedulerStatus uc).1 in
  let after := (GetSchedulerStatus r.1.2).1 in
  r.1.1 = None ∧
  IsRunning r.1.2 = false ∧
  SchedulerInfo.Status after = SchedulerStatusStopped ∧
  SchedulerInfo.NextRun after = None ∧
  SchedulerInfo.LastRun after = SchedulerInfo.LastRun before ∧
  SchedulerInfo.MessagesCount after = SchedulerInfo.MessagesCount before ∧
  SchedulerInfo.Interval after = SchedulerInfo.Interval before ∧
  SchedulerInfo.BatchSize after = SchedulerInfo.BatchSize before ∧
  entryID r.1.2 = entryID uc ∧
  rows r.2 = rows w ∧ api_calls r.2 = api_calls w.
Proof.
  intros H r before after. subst r before after.
  destruct (StopScheduler_running e uc w H) as (-> & -> & ->). done.
Qed.

Lemma StopScheduler_frame_witness :
  (StopScheduler cache_down running_scheduler (sample_world [])).1.1 = None.
Proof.
  pose proof (StopScheduler_frame cache_down running_scheduler (sample_world []) eq_refl)
    as [H _].
  exact H.
Defined.

(** ** The cache is a side channel *)

Lemma Repo_GetPendingMessages_rows f n w1 w2 :
  rows w1 = rows w2 →
  (Repo.GetPendingMessages f n w1).1 = (Repo.GetPendingMessages f n w2).1.
Proof.
  intros H. unfold Repo.GetPendingMessages.
  destruct f; [destruct (n <? 0) |..]; simpl; by rewrite ?H.
Qed.

(** The count, the error and the rows left by a batch depend on the rows it
    starts from and on the answers of the database and of the delivery API,
    not on the cache or the log. *)
Lemma ProcessPendingMessages_same_but_cache env1 env2 n w1 w2 :
  fetch env1 = fetch env2 →
  (∀ k, same_but_cache (sends env1 k) (sends env2 k)) →
  rows w1 = rows w2 →
  (ProcessPendingMessages env1 n w1).1 = (ProcessPendingMessages env2 n w2).1 ∧
  rows (ProcessPendingMessages env1 n w1).2 = rows (ProcessPendingMessages env2 n w2).2.
Proof.
  intros Hf He Hr. rewrite !ProcessPendingMessages_unfold. cbv zeta. rewrite <- Hf.
  rewrite (Repo_GetPendingMessages_rows (fetch env1) n w1 w2 Hr).
  destruct ((Repo.GetPendingMessages (fetch env1) n w2).1) as [msgs [err |]];
    cbn [fst snd]; [done |].
  destruct (Z.of_nat (length msgs) =? 0); [done |].
  destruct (sendLoop_same_but_cache (sends env1) (sends env2) msgs 0%nat 0
              (logf InfoLevel "Processing pending messages" w1).2
              (logf InfoLevel "Processing pending messages" w2).2 He Hr)
    as [H1 H2].
  simpl in *. by rewrite H1, H2.
Qed.

Lemma same_but_cache_refl e : same_but_cache e e.
Proof. done. Qed.

(** C9: what the cache answers changes neither the result nor the state of
    the operation around it.  A stop on a running scheduler and a start on
    a stopped one (the schedule expression parsing) return no error when
    the cache write fails; and the message, the error and the rows left by
    [SendMessage], hence the count, the error and the rows left by
    [ProcessPendingMessages], are the same for every answer of the cache, so
    an acknowledged and persisted send returns nil although the cache write
    failed. *)
Theorem cache_failure_never_propagates :
  (∀ e uc w, isRunning uc = true →
     (StopScheduler e uc w).1.1 = None ∧
     (StopScheduler e uc w).1 = (StopScheduler None uc w).1) ∧
  (∀ e env uc w, isRunning uc = false → parse_err env = None →
     (StartScheduler (start_with_cache_err e env) uc w).1.1 = None ∧
     (StartScheduler (start_with_cache_err e env) uc w).1
       = (StartScheduler env uc w).1) ∧
  (∀ e env m w,
     (SendMessage (with_cache_err e env) m w).1 = (SendMessage env m w).1 ∧
     rows (SendMessage (with_cache_err e env) m w).2 = rows (SendMessage env m w).2 ∧
     (delivered env = true → ID m ∈ map ID (rows w) →
        (SendMessage (with_cache_err e env) m w).1.2 = None)) ∧
  (∀ e env n w,
     (ProcessPendingMessages (batch_with_cache_err e env) n w).1
       = (ProcessPendingMessages env n w).1 ∧
     rows (ProcessPendingMessages (batch_with_cache_err e env) n w).2
       = rows (ProcessPendingMessages env n w).2).
Proof.
  split; [| split; [| split]].
  - intros e uc w H.
    destruct (StopScheduler_running e uc w H) as [-> _].
    by destruct (StopScheduler_running None uc w H) as [-> _].
  - intros e env uc w H Hp.
    rewrite !(StartScheduler_stopped _ uc w H). simpl. by rewrite Hp.
  - intros e env m w.
    destruct (SendMessage_same_but_cache (with_cache_err e env) env m w w) as [H1 H2];
      [done | done |].
    split; [done | split; [done |]].
    intros Hd Hid. apply SendMessage_nil_iff. split; [| done].
    revert Hd. unfold delivered. simpl. done.
  - intros e env n w.
    by apply ProcessPendingMessages_same_but_cache.
Qed.

Lemma cache_failure_never_propagates_witness :
  (StopScheduler cache_down running_scheduler (sample_world [])).1.1 = None ∧
  (SendMessage (with_cache_err cache_down good_send) (sample_message "a" 10) one_pending).1.2
    = None.
Proof.
  destruct cache_failure_never_propagates as (H1 & _ & H3 & _). split.
  - apply (H1 cache_down running_scheduler (sample_world []) eq_refl).
  - apply (H3 cache_down good_send (sample_message "a" 10) one_pending);
      [reflexivity | by left].
Defined.

(** ** The running service *)

Lemma wrap_int_fits z : min_int ≤ z ≤ max_int → wrap_int z = z.
Proof.
  unfold wrap_int, min_int, max_int. intros H.
  rewrite Z.mod_small; lia.
Qed.

Lemma tick_gain_nonneg s ev : 0 ≤ tick_gain s ev.
Proof.
  destruct ev; simpl; try done.
  pose proof (ProcessPendingMessages_count_bounds env
                (config.MessagesPerBatch (config (sched s))) (world s)).
  by destruct ((ProcessPendingMessages _ _ _).1.2).
Qed.

Lemma processMessages_end_sentCount env uc w :
  let r := (ProcessPendingMessages env (config.MessagesPerBatch (config uc)) w).1 in
  sentCount (processMessages_end env uc w).1 =
  match r.2 with
  | Some _ => sentCount uc
  | None => wrap_int (sentCount uc + r.1)
  end.
Proof.
  intros r. subst r.
  destruct (ProcessPendingMessages_same_but_cache env env
              (config.MessagesPerBatch (config uc))
              (logf InfoLevel "Starting scheduled message processing" w).2 w
              eq_refl (λ k, same_but_cache_refl _) eq_refl) as [<- _].
  unfold processMessages_end, bind. simpl.
  destruct (ProcessPendingMessages _ _ _) as [[n [err |]] w']; done.
Qed.

(** Only the end of a tick touches the counter. *)
Lemma exec_sentCount_other s ev s' :
  exec s ev = Some s' →
  (∀ i env, ev ≠ EvTickEnd i env) →
  sentCount (sched s') = sentCount (sched s).
Proof.
  intros H Hev. destruct ev as [env | e | | i now | i env]; simpl in H.
  - destruct (StartScheduler env (sched s) (world s)) as [[err uc] w] eqn:E.
    injection H as <-. simpl.
    destruct (isRunning (sched s)) eqn:R.
    + rewrite (StartScheduler_running _ _ _ R) in E. by injection E as _ <- _.
    + pose proof (StartScheduler_stopped env _ (world s) R) as E'.
      rewrite E in E'. simpl in E'.
      destruct (parse_err env); by injection E' as _ ->.
  - destruct (StopScheduler e (sched s) (world s)) as [[err uc] w] eqn:E.
    injection H as <-. simpl.
    destruct (isRunning (sched s)) eqn:R.
    + destruct (StopScheduler_running e _ (world s) R) as [E' _].
      rewrite E in E'. simpl in E'. by injection E' as _ ->.
    + rewrite (StopScheduler_stopped _ _ _ R) in E. by injection E as _ <- _.
  - destruct (cron.fires _ _); [| done]. by injection H as <-.
  - destruct (ticks s !! i) as [[|] |]; try done. by injection H as <-.
  - by destruct (Hev i env).
Qed.

Lemma exec_sentCount_tick s i env s' :
  exec s (EvTickEnd i env) = Some s' →
  let r := (ProcessPendingMessages env
              (config.MessagesPerBatch (config (sched s))) (world s)).1 in
  sentCount (sched s') =
  match r.2 with
  | Some _ => sentCount (sched s)
  | None => wrap_int (sentCount (sched s) + r.1)
  end.
Proof.
  simpl. destruct (ticks s !! i) as [[|] |]; try done.
  pose proof (processMessages_end_sentCount env (sched s) (world s)) as E.
  destruct (processMessages_end env (sched s) (world s)) as [uc w].
  intros [= <-]. exact E.
Qed.

Lemma exec_sentCount s ev s' :
  exec s ev = Some s' →
  min_int ≤ sentCount (sched s) → step_fits s ev →
  sentCount (sched s') = sentCount (sched s) + tick_gain s ev.
Proof.
  intros H Hmin Hfit.
  assert (Hother : (∀ i env, ev ≠ EvTickEnd i env) →
            sentCount (sched s') = sentCount (sched s) + 0).
  { intros N. rewrite (exec_sentCount_other _ _ _ H N). lia. }
  destruct ev as [env | e | | i now | i env]; try (by apply Hother).
  rewrite (exec_sentCount_tick _ _ _ _ H). unfold step_fits in Hfit.
  pose proof (tick_gain_nonneg s (EvTickEnd i env)) as Hg.
  simpl in *. destruct ((ProcessPendingMessages _ _ _).1.2); [lia |].
  apply wrap_int_fits. lia.
Qed.

Lemma run_sentCount evs : ∀ s s',
  run s evs = Some s' →
  min_int ≤ sentCount (sched s) → run_fits s evs →
  sentCount (sched s) ≤ sentCount (sched s').
Proof.
  induction evs as [| ev evs IH]; intros s s' H Hmin Hfit; simpl in *.
  - injection H as <-. lia.
  - destruct Hfit as [Hstep Hrest].
    destruct (exec s ev) as [s1 |] eqn:E; [| done].
    pose proof (exec_sentCount _ _ _ E Hmin Hstep) as E1.
    pose proof (tick_gain_nonneg s ev).
    specialize (IH s1 s' H ltac:(lia) Hrest). lia.
Qed.

(** C8: a step of the service adds to the cumulative count what the batch
    of a finishing tick returned, when it returned no error, and nothing
    otherwise; so start, stop, the timer and the beginning of a tick leave
    it as it is, a tick whose batch call returns an error leaves it as it
    is, and along every run it never decreases (the count being kept in a
    Go [int], as long as it fits one). *)
Theorem sentCount_never_decreases :
  (∀ s ev s', exec s ev = Some s' →
     min_int ≤ sentCount (sched s) → step_fits s ev →
     sentCount (sched s') = sentCount (sched s) + tick_gain s ev ∧
     sentCount (sched s) ≤ sentCount (sched s')) ∧
  (∀ s ev s', exec s ev = Some s' → (∀ i env, ev ≠ EvTickEnd i env) →
     sentCount (sched s') = sentCount (sched s)) ∧
  (∀ s i env s', exec s (EvTickEnd i env) = Some s' →
     is_Some (ProcessPendingMessages env
                (config.MessagesPerBatch (config (sched s))) (world s)).1.2 →
     sentCount (sched s') = sentCount (sched s)) ∧
  (∀ s evs s', run s evs = Some s' →
     min_int ≤ sentCount (sched s) → run_fits s evs →
     sentCount (sched s) ≤ sentCount (sched s')).
Proof.
  split; [| split; [| split]].
  - intros s ev s' H Hmin Hfit.
    pose proof (exec_sentCount _ _ _ H Hmin Hfit).
    pose proof (tick_gain_nonneg s ev). lia.
  - apply exec_sentCount_other.
  - intros s i env s' H [e He]. rewrite (exec_sentCount_tick _ _ _ _ H).
    simpl. by rewrite He.
  - intros s evs. apply run_sentCount.
Qed.

Lemma sentCount_never_decreases_witness :
  match run (init sample_config three_pending) start_tick_stop with
  | Some s' => 0 ≤ sentCount (sched s')
  | None => False
  end.
Proof.
  destruct (run (init sample_config three_pending) start_tick_stop) as [s' |] eqn:E;
    [| vm_compute in E; discriminate].
  destruct sentCount_never_decreases as (_ & _ & _ & H).
  apply (H (init sample_config three_pending) start_tick_stop s' E).
  - vm_compute. discriminate.
  - vm_compute. repeat split; discriminate.
Defined.

(** ** Next tick and the running flag *)

Lemma processMessages_end_frame env uc w :
  isRunning (processMessages_end env uc w).1 = isRunning uc ∧
  nextRun (processMessages_end env uc w).1 = nextRun uc ∧
  lastRun (processMessages_end env uc w).1 = lastRun uc.
Proof.
  unfold processMessages_end, bind. simpl.
  destruct (ProcessPendingMessages _ _ _) as [[n [err |]] w']; done.
Qed.

(** The half of the invariant that every step keeps, ticks included. *)
Lemma exec_running_has_nextRun s ev s' :
  exec s ev = Some s' →
  (isRunning (sched s) = true → is_Some (nextRun (sched s))) →
  isRunning (sched s') = true → is_Some (nextRun (sched s')).
Proof.
  intros H I. destruct ev as [env | e | | i now | i env]; simpl in H.
  - destruct (StartScheduler env (sched s) (world s)) as [[err uc] w] eqn:E.
    injection H as <-. simpl.
    destruct (isRunning (sched s)) eqn:R.
    + rewrite (StartScheduler_running _ _ _ R) in E. injection E as _ <- _. auto.
    + pose proof (StartScheduler_stopped env _ (world s) R) as E'.
      rewrite E in E'. simpl in E'.
      destruct (parse_err env); injection E' as _ ->; simpl; [congruence | eauto].
  - destruct (StopScheduler e (sched s) (world s)) as [[err uc] w] eqn:E.
    injection H as <-. simpl.
    destruct (isRunning (sched s)) eqn:R.
    + destruct (StopScheduler_running e _ (world s) R) as [E' _].
      rewrite E in E'. simpl in E'. by injection E' as _ ->.
    + rewrite (StopScheduler_stopped _ _ _ R) in E. injection E as _ <- _. congruence.
  - destruct (cron.fires _ _); [| done]. by injection H as <-.
  - destruct (ticks s !! i) as [[|] |]; try done. injection H as <-. simpl. eauto.
  - destruct (ticks s !! i) as [[|] |]; try done.
    destruct (processMessages_end_frame env (sched s) (world s)) as (E1 & E2 & _).
    destruct (processMessages_end env (sched s) (world s)) as [uc w].
    injection H as <-. simpl in *. by rewrite E1, E2.
Qed.

(** X1: in every state reachable from the initial stopped state by start,
    stop, timer and tick steps, a running scheduler has its next tick set. *)
Lemma running_has_nextRun cfg w s :
  reachable cfg w s → isRunning (sched s) = true → is_Some (nextRun (sched s)).
Proof.
  intros [evs H]. revert H.
  assert (G : ∀ evs s0, (isRunning (sched s0) = true → is_Some (nextRun (sched s0))) →
            run s0 evs = Some s →
            isRunning (sched s) = true → is_Some (nextRun (sched s))).
  { clear. intros evs. induction evs as [| ev evs IH]; intros s0 I H; simpl in H.
    - by injection H as <-.
    - destruct (exec s0 ev) as [s1 |] eqn:E; [| done].
      apply (IH s1); [| done]. by apply (exec_running_has_nextRun s0 ev). }
  apply G. simpl. discriminate.
Qed.

Lemma running_has_nextRun_witness :
  is_Some (nextRun running_scheduler).
Proof.
  apply (running_has_nextRun sample_config (sample_world [])
           {| sched := running_scheduler;
              world := (StartScheduler start_ok (NewSchedulerUseCase sample_config)
                          (sample_world [])).2;
              ticks := [] |}).
  - by exists [EvStart start_ok].
  - reflexivity.
Defined.

(** X2: every step keeps "next-tick is set iff running", except the first
    critical section of a tick that runs on a stopped scheduler. *)
Lemma exec_keeps_nextRun_iff_running s ev s' :
  exec s ev = Some s' →
  nextRun_iff_running (sched s) →
  (∀ i now, ev = EvTickBegin i now → isRunning (sched s) = true) →
  nextRun_iff_running (sched s').
Proof.
  unfold nextRun_iff_running.
  intros H I Hev. destruct ev as [env | e | | i now | i env]; simpl in H.
  - destruct (StartScheduler env (sched s) (world s)) as [[err uc] w] eqn:E.
    injection H as <-. simpl.
    destruct (isRunning (sched s)) eqn:R.
    + rewrite (StartScheduler_running _ _ _ R) in E. injection E as _ <- _.
      by rewrite R.
    + pose proof (StartScheduler_stopped env _ (world s) R) as E'.
      rewrite E in E'. simpl in E'.
      destruct (parse_err env); injection E' as _ ->; simpl.
      * by rewrite R.
      * split; eauto.
  - destruct (StopScheduler e (sched s) (world s)) as [[err uc] w] eqn:E.
    injection H as <-. simpl.
    destruct (isRunning (sched s)) eqn:R.
    + destruct (StopScheduler_running e _ (world s) R) as [E' _].
      rewrite E in E'. simpl in E'. injection E' as _ ->. simpl.
      split; [by intros [? ?] | done].
    + rewrite (StopScheduler_stopped _ _ _ R) in E. injection E as _ <- _.
      by rewrite R.
  - destruct (cron.fires _ _); [| done]. by injection H as <-.
  - destruct (ticks s !! i) as [[|] |]; try done. injection H as <-. simpl.
    rewrite (Hev i now eq_refl). split; eauto.
  - destruct (ticks s !! i) as [[|] |]; try done.
    destruct (processMessages_end_frame env (sched s) (world s)) as (E1 & E2 & _).
    destruct (processMessages_end env (sched s) (world s)) as [uc w].
    injection H as <-. simpl in *. by rewrite E1, E2.
Qed.

Lemma exec_keeps_nextRun_iff_running_witness :
  nextRun_iff_running running_scheduler.
Proof.
  apply (exec_keeps_nextRun_iff_running
           (init sample_config (sample_world [])) (EvStart start_ok)
           {| sched := running_scheduler;
              world := (StartScheduler start_ok (NewSchedulerUseCase sample_config)
                          (sample_world [])).2;
              ticks := [] |}).
  - reflexivity.
  - split; [by intros [? ?] | discriminate].
  - discriminate.
Defined.

(** C5 fails on the code: start, the timer fires, and stop takes the lock
    before the tick does; the tick then records its next run on a stopped
    scheduler, a state in which next-tick is set and the running flag is
    false. *)
Theorem tick_after_stop_sets_nextRun :
  ∃ s, run (init sample_config (sample_world [])) tick_overtaken_by_stop = Some s ∧
       reachable sample_config (sample_world []) s ∧
       isRunning (sched s) = false ∧
       nextRun (sched s) = Some (9 + 120000000000) ∧
       ¬ nextRun_iff_running (sched s).
Proof.
  eexists. split; [vm_compute; reflexivity |].
  split; [by exists tick_overtaken_by_stop |].
  split; [reflexivity |]. split; [reflexivity |].
  unfold nextRun_iff_running. simpl. intros [H _].
  discriminate H. by eexists.
Qed.

(** * Further properties *)

(** ** Creating and reading messages *)

Lemma Validate_ext a b :
  Content a = Content b → PhoneNumber a = PhoneNumber b → Validate a = Validate b.
Proof. intros H1 H2. unfold Validate. by rewrite H1, H2. Qed.

Lemma Validate_fields m :
  Validate m = None ↔ Content m ≠ "" ∧ len (Content m) ≤ 160 ∧ PhoneNumber m ≠ "".
Proof.
  unfold Validate.
  destruct (String.eqb_spec (Content m) "") as [E | E]; [naive_solver |].
  destruct (Z.ltb_spec 160 (len (Content m))); [split; [done | lia] |].
  destruct (String.eqb_spec (PhoneNumber m) ""); naive_solver.
Qed.

Lemma find_row_None id table :
  Repo.find_row id table = None ↔ id ∉ map ID table.
Proof.
  unfold Repo.find_row. induction table as [| r t IH]; simpl.
  - split; [intros _; apply not_elem_of_nil | done].
  - rewrite not_elem_of_cons.
    destruct (String.eqb_spec (ID r) id) as [E | E]; [naive_solver |].
    rewrite IH. naive_solver.
Qed.

Lemma find_row_Some id table r :
  Repo.find_row id table = Some r → r ∈ table ∧ ID r = id.
Proof.
  unfold Repo.find_row. intros H. apply find_some in H as [H1 H2].
  split; [by apply list_elem_of_In | by apply String.eqb_eq].
Qed.


Lemma find_row_NoDup id table r :
  NoDup (map ID table) → r ∈ table → ID r = id → Repo.find_row id table = Some r.
Proof.
  unfold Repo.find_row. induction table as [| r0 t IH]; intros Hnd Hin Hid.
  - by apply elem_of_nil in Hin.
  - simpl in *. apply NoDup_cons in Hnd as [Hnotin Hnd].
    apply elem_of_cons in Hin as [-> | Hin].
    + by rewrite (proj2 (String.eqb_eq _ _) Hid).
    + destruct (String.eqb_spec (ID r0) id) as [E | E]; [| by apply IH].
      destruct Hnotin. rewrite E, <- Hid. by apply (list_elem_of_fmap_2 ID).
Qed.

(** What [CreateMessage] returns and does to the world, case by case. *)
Lemma CreateMessage_cases env content phoneNumber w :
  let r := CreateMessage env content phoneNumber w in
  (content = "" ∨ 160 < len content ∨ phoneNumber = "" →
     r.1.1 = None ∧ is_Some r.1.2 ∧ r.2 = w) ∧
  (content ≠ "" → len content ≤ 160 → phoneNumber ≠ "" →
     match insert_outcome env with
     | InsertOk =>
         ∃ m, r.1 = (Some m, None) ∧
              Content m = content ∧ PhoneNumber m = phoneNumber ∧
              Status m = MessageStatusPending ∧
              CreatedAt m = create_now env ∧ UpdatedAt m = create_now env ∧
              SentAt m = None ∧ ExternalMessageID m = None ∧ ErrorMessage m = None ∧
              rows r.2 = rows w ++ [m] ∧ api_calls r.2 = api_calls w
     | InsertFails e =>
         r.1 = (None, Some (Errorf_w "failed to create message: "
                              (Errorf_w "failed to create message: " e))) ∧
         rows r.2 = rows w ∧ api_calls r.2 = api_calls w
     end).
Proof.
  intros r. subst r. unfold CreateMessage.
  match goal with |- context [Validate ?m] => set (m0 := m) end.
  split.
  - intros H.
    assert (Hv : Validate m0 ≠ None).
    { rewrite Validate_fields. simpl. intros (H1 & H2 & H3). naive_solver lia. }
    destruct (Validate m0) as [e |]; [| done]. simpl. eauto.
  - intros H1 H2 H3.
    assert (Hv : Validate m0 = None) by (by apply Validate_fields).
    rewrite Hv. unfold Repo.Create, bind, ret, logf. simpl.
    destruct (String.eqb (new_id env) Repo.uuid_Nil);
      destruct (insert_outcome env); simpl; eauto 15.
Qed.


(** X3: [CreateMessage] validates before anything else: an empty content, a
    content of more than 160 bytes or an empty phone number gives an error
    and leaves the store, the log and the other collaborators as they
    were.  A valid input that the database accepts comes back as a pending
    message with the given content and phone number, created and updated
    at the same instant, and one row is added at the end of the store with
    its identifier, content and phone number, pending, without sent time,
    external identifier or error; when the database refuses the insert the
    error is returned wrapped and the store is unchanged.  The delivery API
    is never called. *)
Theorem CreateMessage_outcome env content phoneNumber w :
  let r := CreateMessage env content phoneNumber w in
  api_calls r.2 = api_calls w ∧
  (content = "" ∨ 160 < len content ∨ phoneNumber = "" →
     r.1.1 = None ∧ is_Some r.1.2 ∧ r.2 = w) ∧
  (content ≠ "" → len content ≤ 160 → phoneNumber ≠ "" →
     match insert_outcome env with
     | InsertOk =>
         ∃ m row, r.1 = (Some m, None) ∧
              Content m = content ∧ PhoneNumber m = phoneNumber ∧
              Status m = MessageStatusPending ∧
              CreatedAt m = create_now env ∧ UpdatedAt m = create_now env ∧
              rows r.2 = rows w ++ [row] ∧
              ID row = ID m ∧ Content row = content ∧ PhoneNumber row = phoneNumber ∧
              Status row = MessageStatusPending ∧ SentAt row = None ∧
              ExternalMessageID row = None ∧ ErrorMessage row = None
     | InsertFails e =>
         r.1 = (None, Some (Errorf_w "failed to create message: "
                              (Errorf_w "failed to create message: " e))) ∧
         rows r.2 = rows w
     end).
Proof.
  intros r. subst r.
  destruct (CreateMessage_cases env content phoneNumber w) as [Hbad Hgood].
  cbv zeta in *. split; [| split].
  - destruct (decide (content = "")) as [-> | H1];
      [by destruct (Hbad (or_introl eq_refl)) as (_ & _ & ->) |].
    destruct (decide (160 < len content)) as [H2 | H2];
      [by destruct (Hbad (or_intror (or_introl H2))) as (_ & _ & ->) |].
    destruct (decide (phoneNumber = "")) as [-> | H3];
      [by destruct (Hbad (or_intror (or_intror eq_refl))) as (_ & _ & ->) |].
    specialize (Hgood H1 ltac:(lia) H3).
    destruct (insert_outcome env).
    + by destruct Hgood as (m & _ & _ & _ & _ & _ & _ & _ & _ & _ & _ & ->).
    + by destruct Hgood as (_ & _ & ->).
  - exact Hbad.
  - intros H1 H2 H3. specialize (Hgood H1 H2 H3).
    destruct (insert_outcome env).
    + destruct Hgood as (m & Hm & Hc & Hp & Hs & Ht & Hu & Hsa & Hx & He & Hrows & _).
      exists m, m. by rewrite Hrows, Hc, Hp.
    + by destruct Hgood as (-> & -> & _).
Qed.

Lemma CreateMessage_outcome_witness :
  (CreateMessage create_ok "" "+905551111111" one_pending).1.1 = None ∧
  (CreateMessage create_ok "" "+905551111111" one_pending).2 = one_pending.
Proof.
  destruct (CreateMessage_outcome create_ok "" "+905551111111" one_pending)
    as (_ & H & _).
  destruct (H (or_introl eq_refl)) as (H1 & _ & H2). by split.
Defined.







(** ** Updating and deleting rows *)

Lemma map_update_row_absent m table :
  ID m ∉ map ID table → map (Repo.update_row m) table = table.
Proof.
  induction table as [| r t IH]; simpl; [done |].
  intros H. apply not_elem_of_cons in H as [Hne H].
  rewrite update_row_other by congruence. by rewrite IH.
Qed.

Lemma find_row_update_row m id table :
  Repo.find_row id (map (Repo.update_row m) table) =
  Repo.update_row m <$> Repo.find_row id table.
Proof.
  unfold Repo.find_row. induction table as [| r t IH]; simpl; [done |].
  rewrite update_row_ID. by destruct (String.eqb (ID r) id).
Qed.

Lemma world_eta w :
  {| rows := rows w; cacheRepo := cacheRepo w; api_calls := api_calls w; log := log w |} = w.
Proof. by destruct w. Qed.

(** X5: [Update] writes the content, phone number, status, external
    identifier and error text of the message into the rows that have its
    identifier and into no other row; it never adds or removes a
    row and never changes an identifier or a creation time.  For an
    identifier that no row has, an executed update returns
    message-not-found and leaves the world as it was; a statement that
    fails leaves it as it was too. *)
Theorem Update_effect db m w :
  let r := Repo.Update db m w in
  map ID (rows r.2) = map ID (rows w) ∧
  map CreatedAt (rows r.2) = map CreatedAt (rows w) ∧
  (∀ id, id ≠ ID m → Repo.find_row id (rows r.2) = Repo.find_row id (rows w)) ∧
  (∀ e, db = ExecFails e → r.2 = w ∧ is_Some r.1) ∧
  (ID m ∉ map ID (rows w) →
     r.2 = w ∧ (db = ExecOk → r.1 = Some ErrMessageNotFound)) ∧
  (ID m ∈ map ID (rows w) → db = ExecOk →
     r.1 = None ∧
     ∃ old row, Repo.find_row (ID m) (rows w) = Some old ∧
                Repo.find_row (ID m) (rows r.2) = Some row ∧
                ID row = ID m ∧ CreatedAt row = CreatedAt old ∧
                Content row = Content m ∧ PhoneNumber row = PhoneNumber m ∧
                Status row = Status m ∧
                ExternalMessageID row = ExternalMessageID m ∧
                ErrorMessage row = ErrorMessage m).
Proof.
  intros r. subst r.
  assert (Hrows : rows (Repo.Update db m w).2 = rows w ∨
                  rows (Repo.Update db m w).2 = map (Repo.update_row m) (rows w)).
  { unfold Repo.Update. unfold_state. destruct db; simpl; auto.
    destruct (_ =? 0); simpl; auto. }
  split; [| split; [| split; [| split; [| split]]]].
  - destruct Hrows as [-> | ->]; [done | apply map_update_row_ID].
  - destruct Hrows as [-> | ->]; [done |]. rewrite map_map. apply map_ext.
    intros a. unfold Repo.update_row. by destruct (String.eqb _ _).
  - intros id Hid. destruct Hrows as [-> | ->]; [done |].
    rewrite find_row_update_row.
    destruct (Repo.find_row id (rows w)) as [a |] eqn:E; [| done]. simpl.
    apply find_row_Some in E as [_ E]. rewrite update_row_other; [done | congruence].
  - intros e ->. simpl. eauto.
  - intros Hnew. pose proof (map_update_row_absent m (rows w) Hnew) as Hmap.
    pose proof (proj2 (rowsAffected_zero m (rows w)) Hnew) as Hz.
    unfold Repo.Update. unfold_state. destruct db; simpl;
      rewrite ?Hmap, ?Hz, ?world_eta; simpl; rewrite ?world_eta; done.
  - intros Hin ->.
    assert (Hnz : Repo.rowsAffected m (rows w) ≠ 0).
    { intros Hz. by apply rowsAffected_zero in Hz. }
    unfold Repo.Update. unfold_state. simpl.
    rewrite (proj2 (Z.eqb_neq _ _) Hnz). simpl. split; [done |].
    rewrite find_row_update_row.
    destruct (Repo.find_row (ID m) (rows w)) as [old |] eqn:E;
      [| by apply find_row_None in E].
    exists old, (Repo.update_row m old). simpl. split; [done |]. split; [done |].
    apply find_row_Some in E as [_ E]. unfold Repo.update_row.
    by rewrite (proj2 (String.eqb_eq _ _) E).
Qed.

Lemma Update_effect_witness :
  (Repo.Update ExecOk (sample_message "zz" 1) one_pending).1 = Some ErrMessageNotFound ∧
  (Repo.Update ExecOk (sample_message "zz" 1) one_pending).2 = one_pending.
Proof.
  destruct (Update_effect ExecOk (sample_message "zz" 1) one_pending)
    as (_ & _ & _ & _ & H & _).
  assert (Hnew : ID (sample_message "zz" 1) ∉ map ID (rows one_pending)).
  { vm_compute. intros Hin. apply list_elem_of_singleton in Hin. discriminate. }
  destruct (H Hnew) as [H1 H2]. split; [by apply H2 | exact H1].
Defined.

Lemma filter_other_ids_absent id table :
  id ∉ map ID table →
  List.filter (λ r, negb (String.eqb (ID r) id)) table = table.
Proof.
  induction table as [| r t IH]; simpl; [done |].
  intros H. apply not_elem_of_cons in H as [Hne H].
  rewrite (proj2 (String.eqb_neq (ID r) id)) by congruence. simpl. by rewrite IH.
Qed.

Lemma filter_same_id_length id table :
  Z.of_nat (length (List.filter (λ r, String.eqb (ID r) id) table)) = 0 ↔
  id ∉ map ID table.
Proof.
  induction table as [| r t IH]; simpl.
  - split; [intros _; apply not_elem_of_nil | done].
  - rewrite not_elem_of_cons. destruct (String.eqb_spec (ID r) id) as [E | E]; simpl.
    + split; [lia | intros [H _]; congruence].
    + rewrite IH. split; [intros H; split; [congruence | done] | tauto].
Qed.

Lemma find_row_filter_other id id' table :
  Repo.find_row id' (List.filter (λ r, negb (String.eqb (ID r) id)) table) =
  if String.eqb id id' then None else Repo.find_row id' table.
Proof.
  unfold Repo.find_row. induction table as [| r t IH]; simpl.
  - by destruct (String.eqb id id').
  - destruct (String.eqb_spec (ID r) id) as [E | E]; simpl.
    + rewrite IH. destruct (String.eqb_spec id id') as [E' | E']; [done |].
      by rewrite (proj2 (String.eqb_neq (ID r) id')) by congruence.
    + destruct (String.eqb_spec (ID r) id') as [E1 | E1]; [| done].
      by rewrite (proj2 (String.eqb_neq id id')) by congruence.
Qed.

(** X6: an executed [Delete] of an identifier that no row has returns
    message-not-found and leaves the world as it was; of an identifier
    that some row has it returns nil, after which that identifier is not
    found any more and every other identifier is found as before.  A
    statement that fails deletes nothing. *)
Theorem Delete_effect db id w :
  let r := Repo.Delete db id w in
  (∀ e, db = ExecFails e → r.2 = w ∧ is_Some r.1) ∧
  (id ∉ map ID (rows w) →
     r.2 = w ∧ (db = ExecOk → r.1 = Some ErrMessageNotFound)) ∧
  (id ∈ map ID (rows w) → db = ExecOk →
     r.1 = None ∧
     (Repo.GetByID RowOk id r.2).1 = (None, Some ErrMessageNotFound) ∧
     ∀ id', id' ≠ id → (Repo.GetByID RowOk id' r.2).1 = (Repo.GetByID RowOk id' w).1).
Proof.
  intros r. subst r. split; [| split].
  - intros e ->. simpl. eauto.
  - intros Hnew. pose proof (filter_other_ids_absent id (rows w) Hnew) as Hf.
    pose proof (proj2 (filter_same_id_length id (rows w)) Hnew) as Hz.
    unfold Repo.Delete, Repo.exec_delete. unfold_state. destruct db; simpl;
      rewrite ?Hf, ?Hz, ?world_eta; simpl; rewrite ?world_eta;
      (split; [reflexivity | intros Hdb; first [discriminate Hdb | reflexivity]]).
  - intros Hin ->.
    assert (Hnz : Z.of_nat (length (List.filter (λ r, String.eqb (ID r) id) (rows w))) ≠ 0).
    { intros Hz. by apply filter_same_id_length in Hz. }
    unfold Repo.Delete, Repo.exec_delete, Repo.GetByID. unfold_state. simpl.
    rewrite (proj2 (Z.eqb_neq _ _) Hnz). simpl. split; [done |]. split.
    + rewrite find_row_filter_other. by rewrite String.eqb_refl.
    + intros id' Hne. rewrite find_row_filter_other.
      destruct (String.eqb_spec id id') as [E | E]; [by destruct Hne |].
      by destruct (Repo.find_row id' (rows w)).
Qed.

Lemma Delete_effect_witness :
  (Repo.Delete ExecOk "a" one_pending).1 = None ∧
  (Repo.GetByID RowOk "a" (Repo.Delete ExecOk "a" one_pending).2).1
    = (None, Some ErrMessageNotFound).
Proof.
  destruct (Delete_effect ExecOk "a" one_pending) as (_ & _ & H).
  assert (Hin : "a" ∈ map ID (rows one_pending)) by (vm_compute; left).
  destruct (H Hin eq_refl) as (H1 & H2 & _). by split.
Defined.

(** ** Statistics and pages of sent messages *)

Lemma count_status_sum table :
  Repo.count_status MessageStatusPending table
  + Repo.count_status MessageStatusSent table
  + Repo.count_status MessageStatusFailed table = Z.of_nat (length table).
Proof.
  unfold Repo.count_status. induction table as [| r t IH]; simpl; [done |].
  destruct (Status r); simpl; lia.
Qed.

Lemma count_status_bounds status table :
  0 ≤ Repo.count_status status table ≤ Z.of_nat (length table).
Proof.
  unfold Repo.count_status. split; [lia |].
  apply inj_le. induction table as [| r t IH]; simpl; [done |].
  destruct (bool_decide _); simpl; lia.
Qed.

(** X7: when the three counts succeed, [GetMessageStats] reports the number
    of pending, sent and failed rows and, as total, their sum, which is the
    number of rows of the store (every row has one of the three statuses);
    it returns an error exactly when one of the counts fails, and changes
    nothing. *)
Theorem GetMessageStats_totals env w :
  let r := GetMessageStats env w in
  r.2 = w ∧
  (is_Some r.1.2 ↔
     ¬ (count_pending env = RowOk ∧ count_sent env = RowOk ∧ count_failed env = RowOk)) ∧
  (count_pending env = RowOk → count_sent env = RowOk → count_failed env = RowOk →
   Z.of_nat (length (rows w)) ≤ max_int →
   ∃ st, r.1 = (Some st, None) ∧
         PendingMessages st = Repo.count_status MessageStatusPending (rows w) ∧
         SentMessages st = Repo.count_status MessageStatusSent (rows w) ∧
         FailedMessages st = Repo.count_status MessageStatusFailed (rows w) ∧
         TotalMessages st = PendingMessages st + SentMessages st + FailedMessages st ∧
         TotalMessages st = Z.of_nat (length (rows w))).
Proof.
  intros r. subst r. unfold GetMessageStats, Repo.CountByStatus, bind, ret.
  split; [| split].
  - destruct (count_pending env), (count_sent env), (count_failed env); done.
  - destruct (count_pending env), (count_sent env), (count_failed env); simpl;
      split; try (intros [? ?]; done); try (intros N; by destruct N);
      try (intros _; intros (? & ? & ?); done); intros; by eexists.
  - intros -> -> -> Hfit. simpl. eexists. split; [done |]. simpl.
    pose proof (count_status_sum (rows w)) as Hsum.
    pose proof (count_status_bounds MessageStatusPending (rows w)).
    pose proof (count_status_bounds MessageStatusSent (rows w)).
    pose proof (count_status_bounds MessageStatusFailed (rows w)).
    assert (Hmin : min_int ≤ 0) by (unfold min_int; lia).
    rewrite (wrap_int_fits (_ + Repo.count_status MessageStatusSent _)) by lia.
    rewrite wrap_int_fits by lia. repeat split; lia.
Qed.

Lemma GetMessageStats_totals_witness :
  ∃ st, (GetMessageStats counts_ok three_sent).1 = (Some st, None) ∧
        TotalMessages st = 4.
Proof.
  destruct (GetMessageStats_totals counts_ok three_sent) as (_ & _ & H).
  destruct (H eq_refl eq_refl eq_refl) as (st & H1 & _ & _ & _ & _ & H2).
  - vm_compute. discriminate.
  - exists st. split; [exact H1 | exact H2].
Defined.

Global Instance sent_ge_trans : Transitive Repo.sent_ge.
Proof.
  unfold Repo.sent_ge. intros a b c.
  destruct (SentAt a), (SentAt b), (SentAt c); try done. lia.
Qed.

Global Instance sent_ge_total : Total Repo.sent_ge.
Proof.
  unfold Repo.sent_ge. intros a b.
  destruct (SentAt a), (SentAt b); try tauto. lia.
Qed.

Lemma elem_of_sent_sorted m table :
  m ∈ Repo.sent_sorted table ↔ m ∈ table ∧ Status m = MessageStatusSent.
Proof.
  unfold Repo.sent_sorted. rewrite merge_sort_Permutation.
  rewrite !list_elem_of_In, filter_In. unfold IsSent.
  by rewrite bool_decide_eq_true.
Qed.

Lemma length_sent_sorted table :
  Z.of_nat (length (Repo.sent_sorted table)) = Repo.count_status MessageStatusSent table.
Proof.
  unfold Repo.sent_sorted, Repo.count_status.
  by rewrite (Permutation_length (merge_sort_Permutation _ _)).
Qed.

Lemma page_offset_fits page limit :
  1 ≤ page ≤ max_int → 0 ≤ limit → (page - 1) * limit ≤ max_int →
  page_offset page limit = (page - 1) * limit.
Proof.
  intros Hp Hl Hfit. unfold page_offset.
  assert (Hmin : min_int ≤ 0) by (unfold min_int; lia).
  rewrite (wrap_int_fits (page - 1)) by lia.
  apply wrap_int_fits. nia.
Qed.

Lemma GetSentMessages_page env page limit w :
  sent_fetch env = FetchOk → sent_count env = RowOk →
  1 ≤ page ≤ max_int → 0 ≤ limit → (page - 1) * limit ≤ max_int →
  GetSentMessages env page limit w =
  ((take (Z.to_nat limit) (drop (Z.to_nat ((page - 1) * limit)) (Repo.sent_sorted (rows w))),
    Repo.count_status MessageStatusSent (rows w), None), w).
Proof.
  intros Hf Hc Hp Hl Hfit.
  unfold GetSentMessages, Repo.GetSentMessages, Repo.CountByStatus, bind, ret.
  rewrite Hf, Hc, page_offset_fits by done.
  rewrite (proj2 (Z.ltb_ge _ 0)) by nia.
  by rewrite (proj2 (Z.ltb_ge limit 0)) by lia.
Qed.

(** X8: pages of sent messages.  With the database answering, a page
    number from 1 on and a limit of 0 or more (the offset fitting an int),
    [GetSentMessages] changes nothing and returns, with the number of sent
    rows as total, the slice of the sent rows ordered by sent time, latest
    first, that starts at (page - 1) * limit and has at most limit entries:
    only sent rows, nothing when the offset is past the end, and the pages
    1 .. k one after the other are the first k * limit sent rows in that
    order.  Page 0 with a positive limit is refused by the database. *)
Theorem GetSentMessages_pages env limit w :
  sent_fetch env = FetchOk → sent_count env = RowOk → 0 ≤ limit →
  let sent := Repo.sent_sorted (rows w) in
  StronglySorted Repo.sent_ge sent ∧
  (∀ m, m ∈ sent ↔ m ∈ rows w ∧ Status m = MessageStatusSent) ∧
  (∀ page, 1 ≤ page ≤ max_int → (page - 1) * limit ≤ max_int →
     let r := GetSentMessages env page limit w in
     r.2 = w ∧ r.1.2 = None ∧ r.1.1.2 = Z.of_nat (length sent) ∧
     r.1.1.1 = take (Z.to_nat limit) (drop (Z.to_nat ((page - 1) * limit)) sent) ∧
     Z.of_nat (length r.1.1.1) ≤ limit ∧
     (∀ m, m ∈ r.1.1.1 → m ∈ rows w ∧ Status m = MessageStatusSent) ∧
     (Z.of_nat (length sent) ≤ (page - 1) * limit → r.1.1.1 = [])) ∧
  (∀ k, Z.of_nat k ≤ max_int → Z.of_nat k * limit ≤ max_int →
     pages_upto env limit w k = take (k * Z.to_nat limit) sent) ∧
  (0 < limit ≤ max_int → is_Some (GetSentMessages env 0 limit w).1.2).
Proof.
  intros Hf Hc Hl sent. subst sent.
  split; [apply (StronglySorted_merge_sort Repo.sent_ge) |].
  split; [intros m; apply elem_of_sent_sorted |].
  split; [| split].
  - intros page Hp Hfit. cbv zeta.
    rewrite (GetSentMessages_page env page limit w Hf Hc Hp Hl Hfit).
    cbn [fst snd]. rewrite length_sent_sorted.
    split; [done |]. split; [done |]. split; [done |]. split; [done |].
    split; [| split].
    + rewrite length_take. lia.
    + intros m Hm. apply elem_of_sent_sorted.
      eapply elem_of_sublist; [exact Hm |].
      etrans; [apply sublist_take | apply sublist_drop].
    + intros Hend. rewrite drop_ge; [by rewrite take_nil |].
      rewrite <- length_sent_sorted in Hend. lia.
  - intros k. unfold pages_upto. induction k as [| k IH]; intros Hk Hfit; [done |].
    rewrite seq_S, map_app, concat_app, IH by nia. simpl. rewrite app_nil_r.
    rewrite (GetSentMessages_page env (Z.of_nat (S k)) limit w Hf Hc)
      by (try done; nia).
    cbn [fst snd].
    replace (Z.to_nat ((Z.of_nat (S k) - 1) * limit))
      with (k * Z.to_nat limit)%nat by nia.
    rewrite take_take_drop. f_equal. lia.
  - intros Hlim.
    unfold GetSentMessages, Repo.GetSentMessages, bind, ret, logf, page_offset.
    rewrite Hf.
    assert (Hmin : min_int ≤ -1) by (unfold min_int; lia).
    rewrite (wrap_int_fits (0 - 1)) by (unfold max_int in *; lia).
    rewrite wrap_int_fits by (unfold max_int, min_int in *; lia).
    rewrite (proj2 (Z.ltb_lt _ 0)) by lia. simpl. by eexists.
Qed.

Lemma GetSentMessages_pages_witness :
  map ID (GetSentMessages reads_ok 2 2 three_sent).1.1.1 = ["a"] ∧
  map ID (pages_upto reads_ok 2 three_sent 2) = ["b"; "c"; "a"].
Proof.
  destruct (GetSentMessages_pages reads_ok 2 three_sent eq_refl eq_refl ltac:(lia))
    as (_ & _ & Hpage & Hupto & _).
  split.
  - destruct (Hpage 2) as (_ & _ & _ & -> & _); [by vm_compute | by vm_compute |].
    reflexivity.
  - rewrite (Hupto 2%nat); [reflexivity | by vm_compute | by vm_compute].
Defined.

(** ** What a batch leaves pending *)

Lemma SendMessage_result_status env m w :
  Status (SendMessage env m w).1.1 ≠ MessageStatusPending.
Proof.
  destruct (acked_sent (api_reply env)) eqn:A.
  - destruct (SendMessage_acked env m w A) as [-> _]. done.
  - destruct (SendMessage_not_acked env m w A) as (_ & -> & _). done.
Qed.

Lemma filter_pending_update_row m' (h : Message → bool) table :
  Status m' ≠ MessageStatusPending →
  (∀ r, h (Repo.update_row m' r) = h r) →
  List.filter (λ r, IsPending r && h r) (map (Repo.update_row m') table) =
  List.filter (λ r, IsPending r && h r && negb (String.eqb (ID r) (ID m'))) table.
Proof.
  intros Hs Hh. induction table as [| r t IH]; simpl; [done |].
  rewrite Hh, IH.
  destruct (String.eqb_spec (ID r) (ID m')) as [E | E]; simpl.
  - assert (IsPending (Repo.update_row m' r) = false) as ->.
    { unfold IsPending, Repo.update_row.
      rewrite (proj2 (String.eqb_eq _ _) E). simpl.
      by apply bool_decide_eq_false_2. }
    by rewrite andb_false_r.
  - rewrite update_row_other by done. by rewrite andb_true_r.
Qed.

Lemma pending_outside_update_row m' batch r :
  negb (bool_decide (ID (Repo.update_row m' r) ∈ map ID batch)) =
  negb (bool_decide (ID r ∈ map ID batch)).
Proof. by rewrite update_row_ID. Qed.

Lemma sendLoop_pending env msgs : ∀ i c w,
  (∀ j, (j < length msgs)%nat → update_executed (env (i + j)%nat) = true) →
  List.filter IsPending (rows (sendLoop env i msgs c w).2) =
  List.filter (pending_outside msgs) (rows w).
Proof.
  induction msgs as [| m rest IH]; intros i c w Hex.
  - cbn [sendLoop ret snd]. apply filter_ext. intros r. unfold pending_outside.
    rewrite bool_decide_eq_false_2 by apply not_elem_of_nil. by rewrite andb_true_r.
  - rewrite sendLoop_cons. cbn [fst snd]. rewrite IH.
    + rewrite after_send_error_rows, SendMessage_rows.
      pose proof (Hex 0%nat ltac:(simpl; lia)) as H0. rewrite Nat.add_0_r in H0.
      unfold update_executed in H0.
      assert (Hgoal :
        List.filter (pending_outside rest)
          (map (Repo.update_row (SendMessage (env i) m w).1.1) (rows w)) =
        List.filter (pending_outside (m :: rest)) (rows w)).
      { unfold pending_outside.
        rewrite (filter_pending_update_row _
                   (λ r, negb (bool_decide (ID r ∈ map ID rest))))
          by (try apply SendMessage_result_status; intros; apply pending_outside_update_row).
        apply filter_ext. intros r. rewrite SendMessage_result_ID. simpl.
        rewrite <- andb_assoc. f_equal.
        destruct (String.eqb_spec (ID r) (ID m)) as [E | E].
        - rewrite (bool_decide_eq_true_2 (ID r ∈ ID m :: map ID rest))
            by (rewrite E; left).
          by rewrite andb_false_r.
        - rewrite andb_true_r. f_equal. apply bool_decide_ext.
          rewrite elem_of_cons. naive_solver. }
      by destruct (update_outcome (env i)).
    + intros j Hj. replace (S i + j)%nat with (i + S j)%nat by lia.
      apply Hex. simpl. lia.
Qed.

Lemma length_filter_Permutation (f : Message → bool) l1 l2 :
  l1 ≡ₚ l2 → length (List.filter f l1) = length (List.filter f l2).
Proof.
  induction 1 as [| x l1 l2 _ IH | x y l | l1 l2 l3 _ IH1 _ IH2]; simpl.
  - done.
  - destruct (f x); simpl; by rewrite IH.
  - by destruct (f x), (f y).
  - by rewrite IH1.
Qed.

Lemma filter_filter_andb (f g : Message → bool) l :
  List.filter (λ r, f r && g r) l = List.filter g (List.filter f l).
Proof.
  induction l as [| r t IH]; simpl; [done |].
  destruct (f r); simpl; [| done]. destruct (g r); by rewrite IH.
Qed.

Lemma filter_outside_all batch l :
  (∀ r, r ∈ l → ID r ∈ map ID batch) →
  List.filter (λ r, negb (bool_decide (ID r ∈ map ID batch))) l = [].
Proof.
  induction l as [| r t IH]; intros H; simpl; [done |].
  rewrite bool_decide_eq_true_2 by (apply H; left). simpl.
  apply IH. intros r' Hr'. apply H. by right.
Qed.

Lemma filter_outside_none batch l :
  (∀ r, r ∈ l → ID r ∉ map ID batch) →
  List.filter (λ r, negb (bool_decide (ID r ∈ map ID batch))) l = l.
Proof.
  induction l as [| r t IH]; intros H; simpl; [done |].
  rewrite bool_decide_eq_false_2 by (apply H; left). simpl.
  rewrite IH; [done |]. intros r' Hr'. apply H. by right.
Qed.

(** With distinct identifiers, the pending rows outside the batch are the
    pending rows but the batch. *)
Lemma length_pending_outside table limit :
  NoDup (map ID table) →
  (length (List.filter (pending_outside (Repo.select_pending table limit)) table)
   = length (List.filter IsPending table)
     - length (Repo.select_pending table limit))%nat.
Proof.
  intros Hnd. unfold pending_outside. rewrite filter_filter_andb.
  set (batch := Repo.select_pending table limit).
  set (rest := drop (Z.to_nat limit) (merge_sort created_le (List.filter IsPending table))).
  pose proof (select_pending_split table limit) as Hsplit. fold batch rest in Hsplit.
  rewrite <- (length_filter_Permutation _ _ _ Hsplit).
  rewrite <- (Permutation_length Hsplit), length_app, List.filter_app, length_app.
  assert (Hnd' : NoDup (map ID (batch ++ rest))).
  { change (NoDup (ID <$> batch ++ rest)). rewrite Hsplit.
    eapply sublist_NoDup; [exact Hnd |].
    apply (fmap_sublist ID), filter_IsPending_sublist. }
  rewrite map_app in Hnd'. apply NoDup_app in Hnd' as (_ & Hdisj & _).
  rewrite filter_outside_all by (intros r Hr; by apply (list_elem_of_fmap_2 ID)).
  rewrite filter_outside_none.
  - simpl. lia.
  - intros r Hr Hin. apply (Hdisj (ID r)); [done |]. by apply (list_elem_of_fmap_2 ID).
Qed.

(** X9: a batch whose updates are all executed takes every message it
    attempts out of the pending status, whether the delivery succeeded or
    not: the rows pending afterwards are the rows that were pending and
    were not in the batch, so, with distinct identifiers, M pending rows
    become M - min(M, N), and no message is attempted by two successive
    calls. *)
Theorem ProcessPendingMessages_drains env N w :
  fetch env = FetchOk → 0 ≤ N →
  let batch := Repo.select_pending (rows w) N in
  let after := rows (ProcessPendingMessages env N w).2 in
  (∀ j, (j < length batch)%nat → update_executed (sends env j) = true) →
  List.filter IsPending after = List.filter (pending_outside batch) (rows w) ∧
  (∀ m r, m ∈ batch → r ∈ after → ID r = ID m → Status r ≠ MessageStatusPending) ∧
  (distinct_ids w →
     let M := Z.of_nat (length (List.filter IsPending (rows w))) in
     Z.of_nat (length (List.filter IsPending after)) = M - Z.min M N).
Proof.
  intros Hf HN batch after Hex. subst after.
  destruct (ProcessPendingMessages_ok env N w Hf HN) as (_ & _ & -> & _).
  fold batch.
  assert (Hpend : List.filter IsPending
                    (rows (sendLoop (sends env) 0 batch 0
                             (logf InfoLevel "Processing pending messages" w).2).2)
                  = List.filter (pending_outside batch) (rows w)).
  { by rewrite sendLoop_pending. }
  split; [exact Hpend | split].
  - intros m r Hm Hr Hid Hs.
    assert (Hin : r ∈ List.filter (pending_outside batch) (rows w)).
    { rewrite <- Hpend. apply list_elem_of_In, filter_In. split.
      - by apply list_elem_of_In.
      - unfold IsPending. by apply bool_decide_eq_true. }
    apply list_elem_of_In, filter_In in Hin as [_ Hin].
    unfold pending_outside in Hin. apply andb_true_iff in Hin as [_ Hin].
    apply negb_true_iff, bool_decide_eq_false in Hin. apply Hin.
    rewrite Hid. by apply (list_elem_of_fmap_2 ID).
  - intros Hnd M. rewrite Hpend. subst batch.
    rewrite (length_pending_outside (rows w) N Hnd), select_pending_length.
    subst M. lia.
Qed.

Lemma ProcessPendingMessages_drains_witness :
  length (List.filter IsPending (rows (ProcessPendingMessages first_send_fails 2 three_pending).2))
  = 1%nat.
Proof.
  destruct (ProcessPendingMessages_drains first_send_fails 2 three_pending
              eq_refl ltac:(lia)) as (_ & _ & H).
  - intros j _. by destruct j.
  - apply Nat2Z.inj. rewrite H; [reflexivity |].
    unfold distinct_ids. vm_compute. repeat constructor; set_solver.
Defined.

(** ** An attempt that is not persisted *)

Lemma SendMessage_rows_keep env m w r :
  r ∈ rows w →
  (ID m = ID r → update_executed env = false) →
  r ∈ rows (SendMessage env m w).2.
Proof.
  intros Hr Hkeep. rewrite SendMessage_rows. unfold update_executed in Hkeep.
  destruct (String.eqb_spec (ID r) (ID m)) as [E | E].
  - specialize (Hkeep (eq_sym E)). by destruct (update_outcome env).
  - destruct (update_outcome env); try done;
      (apply list_elem_of_fmap; exists r; split; [| done]);
      rewrite update_row_other; try done; by rewrite SendMessage_result_ID.
Qed.

Lemma sendLoop_rows_keep env msgs : ∀ i c w r,
  r ∈ rows w →
  (∀ j m, msgs !! j = Some m → ID m = ID r →
          update_executed (env (i + j)%nat) = false) →
  r ∈ rows (sendLoop env i msgs c w).2.
Proof.
  induction msgs as [| m rest IH]; intros i c w r Hr Hkeep; [done |].
  rewrite sendLoop_cons. cbn [fst snd]. apply IH.
  - rewrite after_send_error_rows. apply SendMessage_rows_keep; [done |].
    intros E. specialize (Hkeep 0%nat m eq_refl E). by rewrite Nat.add_0_r in Hkeep.
  - intros j m' Hj E. replace (S i + j)%nat with (i + S j)%nat by lia.
    by apply (Hkeep (S j) m').
Qed.

(** X10: an attempt whose update the database does not execute leaves the
    row of the message as it was, whatever the delivery API answered: with
    distinct identifiers, the message is still a pending row of the store
    after the batch, so a later batch can select and deliver it again. *)
Theorem unpersisted_attempt_stays_pending env N w j m :
  fetch env = FetchOk → 0 ≤ N → distinct_ids w →
  Repo.select_pending (rows w) N !! j = Some m →
  update_executed (sends env j) = false →
  let after := rows (ProcessPendingMessages env N w).2 in
  m ∈ after ∧ m ∈ List.filter IsPending after ∧
  (Repo.GetByID RowOk (ID m) (ProcessPendingMessages env N w).2).1 = (Some m, None).
Proof.
  intros Hf HN Hnd Hj Hex after. subst after.
  assert (Hafter : m ∈ rows (ProcessPendingMessages env N w).2).
  { destruct (ProcessPendingMessages_ok env N w Hf HN) as (_ & _ & -> & _).
    apply sendLoop_rows_keep.
    - simpl. apply (select_pending_elem m (rows w) N).
      by apply list_elem_of_lookup_2 in Hj.
    - intros k m' Hk E. simpl.
      pose proof (select_pending_NoDup (rows w) N Hnd) as Hnd'.
      assert (k = j) as ->; [| done].
      eapply (NoDup_lookup (map ID (Repo.select_pending (rows w) N))); [done | |].
      + change (map ID ?l) with (ID <$> l). rewrite list_lookup_fmap, Hk. done.
      + change (map ID ?l) with (ID <$> l). rewrite list_lookup_fmap, Hj. simpl.
        by rewrite E. }
  assert (Hpend : Status m = MessageStatusPending).
  { apply (select_pending_elem m (rows w) N). by apply list_elem_of_lookup_2 in Hj. }
  split; [done | split].
  - apply list_elem_of_In, filter_In. split; [by apply list_elem_of_In |].
    unfold IsPending. by apply bool_decide_eq_true.
  - unfold Repo.GetByID. rewrite (find_row_NoDup (ID m) _ m); try done.
    destruct (ProcessPendingMessages_ok env N w Hf HN) as (_ & _ & -> & _).
    unfold distinct_ids in Hnd. by rewrite sendLoop_ids.
Qed.

Lemma unpersisted_attempt_stays_pending_witness :
  sample_message "a" 10 ∈ List.filter IsPending
    (rows (ProcessPendingMessages update_fails 1 one_pending).2).
Proof.
  refine (proj1 (proj2 (unpersisted_attempt_stays_pending update_fails 1 one_pending
                          0%nat (sample_message "a" 10) eq_refl _ _ eq_refl eq_refl))).
  - lia.
  - unfold distinct_ids. vm_compute. repeat constructor; set_solver.
Defined.

(** ** Valid rows stay valid *)

Lemma SendMessage_result_fields env m w :
  Content (SendMessage env m w).1.1 = Content m ∧
  PhoneNumber (SendMessage env m w).1.1 = PhoneNumber m ∧
  CreatedAt (SendMessage env m w).1.1 = CreatedAt m.
Proof. send_cases env w; done. Qed.

Lemma update_row_valid m r :
  Validate m = None → Validate r = None → Validate (Repo.update_row m r) = None.
Proof.
  intros Hm Hr. unfold Repo.update_row.
  destruct (String.eqb (ID r) (ID m)); [| done].
  by rewrite (Validate_ext _ m).
Qed.

Lemma SendMessage_all_valid env m w :
  Validate m = None → all_valid w → all_valid (SendMessage env m w).2.
Proof.
  unfold all_valid. intros Hm Hw. rewrite SendMessage_rows.
  assert (Hm' : Validate (SendMessage env m w).1.1 = None).
  { destruct (SendMessage_result_fields env m w) as (H1 & H2 & _).
    by rewrite (Validate_ext _ m). }
  destruct (update_outcome env); try done;
    apply Forall_fmap; eapply Forall_impl; try exact Hw;
    intros r Hr; by apply update_row_valid.
Qed.

Lemma sendLoop_all_valid env msgs : ∀ i c w,
  Forall (λ m, Validate m = None) msgs → all_valid w →
  all_valid (sendLoop env i msgs c w).2.
Proof.
  induction msgs as [| m rest IH]; intros i c w Hms Hw; [done |].
  rewrite sendLoop_cons. cbn [fst snd].
  apply Forall_cons in Hms as [Hm Hms]. apply IH; [done |].
  unfold all_valid. rewrite after_send_error_rows. by apply SendMessage_all_valid.
Qed.

(** X11: the operations of the message use case keep every row of the store
    valid (content of 1 to 160 bytes, phone number not empty): what
    [CreateMessage] adds passed the validation, and [SendMessage] on a
    valid message and [ProcessPendingMessages] write back the content and
    the phone number they read. *)
Theorem store_stays_valid w :
  all_valid w →
  (∀ env content phoneNumber, all_valid (CreateMessage env content phoneNumber w).2) ∧
  (∀ env m, Validate m = None → all_valid (SendMessage env m w).2) ∧
  (∀ env n, all_valid (ProcessPendingMessages env n w).2).
Proof.
  intros Hw. split; [| split].
  - intros env content phoneNumber.
    destruct (CreateMessage_cases env content phoneNumber w) as [Hbad Hgood].
    cbv zeta in *.
    destruct (decide (content = "")) as [-> | H1];
      [destruct (Hbad (or_introl eq_refl)) as (_ & _ & ->); done |].
    destruct (decide (160 < len content)) as [H2 | H2];
      [destruct (Hbad (or_intror (or_introl H2))) as (_ & _ & ->); done |].
    destruct (decide (phoneNumber = "")) as [-> | H3];
      [destruct (Hbad (or_intror (or_intror eq_refl))) as (_ & _ & ->); done |].
    specialize (Hgood H1 ltac:(lia) H3). unfold all_valid.
    destruct (insert_outcome env).
    + destruct Hgood as (m & _ & Hc & Hp & _ & _ & _ & _ & _ & _ & -> & _).
      apply Forall_app. split; [done |]. apply Forall_singleton.
      apply Validate_fields. rewrite Hc, Hp. split; [done | split; [lia | done]].
    + destruct Hgood as (_ & -> & _). done.
  - intros env m Hm. by apply SendMessage_all_valid.
  - intros env n.
    destruct (decide (fetch env = FetchOk ∧ 0 ≤ n)) as [[Hf Hn] | H].
    + destruct (ProcessPendingMessages_ok env n w Hf Hn) as (_ & _ & Hrows & _).
      unfold all_valid. rewrite Hrows. apply sendLoop_all_valid; [| done].
      apply Forall_forall. intros m Hm. apply select_pending_elem in Hm as [Hm _].
      unfold all_valid in Hw. rewrite Forall_forall in Hw. by apply Hw.
    + destruct (ProcessPendingMessages_fetch_fails env n w H) as (_ & _ & _ & Hrows & _).
      unfold all_valid. by rewrite Hrows.
Qed.

Lemma store_stays_valid_witness :
  all_valid (ProcessPendingMessages first_send_fails 3 three_pending).2.
Proof.
  apply (store_stays_valid three_pending).
  unfold all_valid. vm_compute. repeat constructor.
Defined.

(** ** The delivery client *)

(** X12: [MessageAPIClient.SendMessage] returns a nil error exactly when the
    API answered with a status code from 200 to 299.  Such an answer counts
    as an acknowledgement "sent", under a generated identifier, whenever
    its body is not decoded or carries no message identifier; a decoded
    body with a message identifier is returned as it is.  Every other
    answer gives the error "API request failed with status <code>". *)
Theorem client_respond unmarshal unixNano o :
  let r := external.respond unmarshal unixNano o in
  ((∃ response, r = external.Ok response) ↔
   ∃ code body, o = external.Answered code body ∧ 200 ≤ code < 300) ∧
  (∀ code body, o = external.Answered code body → 200 ≤ code < 300 →
     match unmarshal body with
     | Some p =>
         if String.eqb (external.MessageID p) "" then
           acked_sent r = true ∧
           ∃ response, r = external.Ok response ∧
             external.MessageID response = external.generateMockMessageID unixNano
         else r = external.Ok p
     | None =>
         acked_sent r = true ∧
         ∃ response, r = external.Ok response ∧
           external.MessageID response = external.generateMockMessageID unixNano
     end) ∧
  (∀ code body, o = external.Answered code body → ¬ 200 ≤ code < 300 →
     ∃ response,
       r = external.Failed (Some response)
             (Errorf_s ("API request failed with status " +:+ external.format_d code))).
Proof.
  intros r. subst r. split; [| split].
  - split.
    + intros [response H]. destruct o as [e | e | code e | code body]; try done.
      exists code, body. split; [done |]. simpl in H.
      destruct (Z.leb_spec 200 code), (Z.ltb_spec code 300); simpl in H; try done; lia.
    + intros (code & body & -> & H1 & H2). simpl.
      rewrite (proj2 (Z.leb_le _ _) H1), (proj2 (Z.ltb_lt _ _) H2). simpl.
      destruct (unmarshal body) as [p |]; [| by eexists].
      destruct (String.eqb (external.MessageID p) ""); by eexists.
  - intros code body -> [H1 H2]. simpl.
    rewrite (proj2 (Z.leb_le _ _) H1), (proj2 (Z.ltb_lt _ _) H2). simpl.
    destruct (unmarshal body) as [p |]; [| split; [done | by eexists]].
    destruct (String.eqb (external.MessageID p) ""); simpl;
      [split; [done | by eexists] | done].
  - intros code body -> H. simpl.
    destruct (Z.leb_spec 200 code), (Z.ltb_spec code 300); simpl;
      try (exfalso; apply H; lia); by eexists.
Qed.

Lemma client_respond_witness :
  acked_sent (external.respond no_json 1700000000 (external.Answered 200 "{}")) = true.
Proof.
  destruct (client_respond no_json 1700000000 (external.Answered 200 "{}"))
    as (_ & H & _).
  apply (H 200 "{}" eq_refl). lia.
Defined.

(** X13: a send over HTTP.  When the API answers with a status code outside
    200..299, [SendMessage] returns an error and marks the message failed
    with the text "API request failed with status <code>", whatever the
    body says.  When it answers 200..299 with a body that is not decoded or
    has no message identifier, and the update of the row is executed on a
    stored message, [SendMessage] returns nil and the message is sent under
    the generated identifier.  A transport failure marks the message
    failed. *)
Theorem SendMessage_over_http unmarshal unixNano o env m w :
  let r := SendMessage (over_http unmarshal unixNano o env) m w in
  (∀ code body, o = external.Answered code body → ¬ 200 ≤ code < 300 →
     is_Some r.1.2 ∧ Status r.1.1 = MessageStatusFailed ∧
     ErrorMessage r.1.1
       = Some ("API request failed with status " +:+ external.format_d code)) ∧
  (∀ code body, o = external.Answered code body → 200 ≤ code < 300 →
     (unmarshal body = None ∨
      ∃ p, unmarshal body = Some p ∧ external.MessageID p = "") →
     Status r.1.1 = MessageStatusSent ∧
     ExternalMessageID r.1.1 = Some (external.generateMockMessageID unixNano) ∧
     SentAt r.1.1 = Some (now env) ∧
     (update_outcome env = ExecOk → ID m ∈ map ID (rows w) → r.1.2 = None)) ∧
  (∀ e, o = external.DoFails e →
     is_Some r.1.2 ∧ Status r.1.1 = MessageStatusFailed ∧
     ErrorMessage r.1.1 = Some ("failed to send request: " +:+ Error e)).
Proof.
  intros r. subst r. split; [| split].
  - intros code body -> H.
    assert (Hr : external.respond unmarshal unixNano (external.Answered code body) =
                 external.Failed
                   (Some match unmarshal body with
                         | Some r => r
                         | None => {| external.MessageID := ""; external.Status := "failed";
                                      external.Message := "";
                                      external.Error := "HTTP " +:+ external.format_d code
                                                        +:+ ": " +:+ body |}
                         end)
                   (Errorf_s ("API request failed with status " +:+ external.format_d code))).
    { simpl. destruct (Z.leb_spec 200 code), (Z.ltb_spec code 300); simpl;
        try done; exfalso; apply H; lia. }
    unfold SendMessage, over_http. unfold_state. cbn [api_reply]. rewrite Hr.
    cbn [now update_outcome cache_err]. simpl.
    destruct (update_outcome env); unfold_state; simpl;
      repeat match goal with
      | |- context [Repo.rowsAffected ?m ?t =? 0] =>
          destruct (Repo.rowsAffected m t =? 0); unfold_state; simpl
      end; split; eauto.
  - intros code body -> [H1 H2] Hbody.
    assert (Hr : external.respond unmarshal unixNano (external.Answered code body) =
                 external.Ok
                   {| external.MessageID := external.generateMockMessageID unixNano;
                      external.Status := "sent";
                      external.Message := "Message sent successfully";
                      external.Error := "" |}).
    { simpl. rewrite (proj2 (Z.leb_le _ _) H1), (proj2 (Z.ltb_lt _ _) H2). simpl.
      destruct Hbody as [-> | (p & -> & ->)]; done. }
    split; [| split; [| split]].
    + apply SendMessage_acked. unfold over_http. cbn [api_reply]. by rewrite Hr.
    + unfold SendMessage, over_http. unfold_state. cbn [api_reply]. rewrite Hr.
      cbn [now update_outcome cache_err]. simpl.
      destruct (update_outcome env); unfold_state; simpl;
        repeat match goal with
        | |- context [Repo.rowsAffected ?m ?t =? 0] =>
            destruct (Repo.rowsAffected m t =? 0); unfold_state; simpl
        | |- context [bool_decide (is_Some (cacheRepo ?w))] =>
            destruct (cacheRepo w); unfold_state; simpl
        | |- context [cache_err ?e] => destruct (cache_err e); unfold_state; simpl
        end; done.
    + unfold SendMessage, over_http. unfold_state. cbn [api_reply]. rewrite Hr.
      cbn [now update_outcome cache_err]. simpl.
      destruct (update_outcome env); unfold_state; simpl;
        repeat match goal with
        | |- context [Repo.rowsAffected ?m ?t =? 0] =>
            destruct (Repo.rowsAffected m t =? 0); unfold_state; simpl
        | |- context [bool_decide (is_Some (cacheRepo ?w))] =>
            destruct (cacheRepo w); unfold_state; simpl
        | |- context [cache_err ?e] => destruct (cache_err e); unfold_state; simpl
        end; done.
    + intros Hu Hid. apply SendMessage_nil_iff. split; [| done].
      unfold delivered, over_http. cbn [api_reply update_outcome]. rewrite Hr, Hu. done.
  - intros e ->.
    unfold SendMessage, over_http. unfold_state. cbn [api_reply external.respond].
    cbn [now update_outcome cache_err]. simpl.
    destruct (update_outcome env); unfold_state; simpl;
      repeat match goal with
      | |- context [Repo.rowsAffected ?m ?t =? 0] =>
          destruct (Repo.rowsAffected m t =? 0); unfold_state; simpl
      end; split; eauto.
Qed.

Lemma SendMessage_over_http_witness :
  ErrorMessage (SendMessage (over_http no_json 1700000000
                               (external.Answered 500 "oops") good_send)
                  (sample_message "a" 10) one_pending).1.1
  = Some "API request failed with status 500".
Proof.
  destruct (SendMessage_over_http no_json 1700000000 (external.Answered 500 "oops")
              good_send (sample_message "a" 10) one_pending) as (H & _ & _).
  destruct (H 500 "oops" eq_refl) as (_ & _ & H3); [lia | exact H3].
Defined.

(** ** Handlers *)

(** X14: the scheduler handlers.  The start handler answers 400
    "already_running" when the scheduler runs, leaving everything as it
    was; otherwise 500 when the schedule expression is refused (the
    refusal not being the already-running error), and 200 with the
    scheduler running when it is accepted.  The stop handler answers 200
    with the scheduler stopped when it runs and 400 "not_running" when it
    does not: it never answers 500.  The answer of the cache plays no
    part. *)
Theorem scheduler_handlers uc w :
  (∀ env,
     (∀ e, parse_err env = Some e → errors_Is e ErrSchedulerAlreadyRunning = false) →
     let r := SchedulerHandler.StartScheduler env uc w in
     match isRunning uc, parse_err env with
     | true, _ =>
         r.1.1.1 = 400 ∧
         r.1.1.2 = ErrorBody (dto.NewErrorResponse "already_running"
                                "Scheduler is already running" 400) ∧
         r.1.2 = uc ∧ r.2 = w
     | false, Some _ => r.1.1.1 = 500 ∧ r.1.2 = uc
     | false, None => r.1.1.1 = 200 ∧ isRunning r.1.2 = true
     end) ∧
  (∀ e,
     let r := SchedulerHandler.StopScheduler e uc w in
     if isRunning uc
     then r.1.1.1 = 200 ∧ isRunning r.1.2 = false ∧ nextRun r.1.2 = None
     else r.1.1.1 = 400 ∧
          r.1.1.2 = ErrorBody (dto.NewErrorResponse "not_running"
                                 "Scheduler is not running" 400) ∧
          r.1.2 = uc ∧ r.2 = w).
Proof.
  split.
  - intros env Hparse r. subst r. unfold SchedulerHandler.StartScheduler, bind.
    destruct (isRunning uc) eqn:R.
    + rewrite (StartScheduler_running env uc w R). simpl. done.
    + pose proof (StartScheduler_stopped env uc w R) as E.
      destruct (StartScheduler env uc w) as [[err uc'] w']. simpl in E.
      destruct (parse_err env) as [e |] eqn:P; injection E as -> ->; simpl.
      * rewrite (Hparse e eq_refl). simpl. done.
      * done.
  - intros e r. subst r. unfold SchedulerHandler.StopScheduler, bind.
    destruct (isRunning uc) eqn:R.
    + destruct (StopScheduler_running e uc w R) as [E _].
      destruct (StopScheduler e uc w) as [[err uc'] w']. simpl in E.
      injection E as -> ->. simpl. done.
    + rewrite (StopScheduler_stopped e uc w R). simpl. done.
Qed.

Lemma scheduler_handlers_witness :
  (SchedulerHandler.StartScheduler start_ok running_scheduler (sample_world [])).1.1.1 = 400.
Proof.
  destruct (scheduler_handlers running_scheduler (sample_world [])) as [H _].
  specialize (H start_ok). simpl in H. apply H. discriminate.
Defined.

Lemma GetMessageByID_cases db id w :
  (∃ e, GetMessageByID db id w
        = ((None, Some e), (logf ErrorLevel "Failed to get message by ID" w).2)) ∨
  (∃ m, GetMessageByID db id w = ((Some m, None), w) ∧
        Repo.find_row id (rows w) = Some m ∧ db = RowOk).
Proof.
  unfold GetMessageByID, Repo.GetByID, bind, ret.
  destruct db; [destruct (Repo.find_row id (rows w)) as [m |] eqn:E |]; simpl; eauto.
Qed.

Lemma MessageHandler_SendMessage_found env id m w :
  parsed_id env = Some id → get_outcome env = RowOk →
  Repo.find_row id (rows w) = Some m →
  MessageHandler.SendMessage env w =
  if negb (IsPending m)
  then ((400, ErrorBody (dto.NewErrorResponse "invalid_status"
                           "Message is not in pending status" 400)), w)
  else
    let s := SendMessage (handler_send env) m w in
    match s.1.2 with
    | Some _ =>
        ((500, ErrorBody (dto.NewErrorResponse "send_error"
                            "Failed to send message" 500)),
         (logf ErrorLevel "Failed to send message" s.2).2)
    | None =>
        ((200, SuccessBody (dto.NewSuccessResponse "Message sent successfully"
                              dto.NoData)), s.2)
    end.
Proof.
  intros Hp Hg Hfind.
  unfold MessageHandler.SendMessage, GetMessageByID, Repo.GetByID, bind, ret.
  rewrite Hp, Hg, Hfind. simpl.
  destruct (IsPending m); simpl; [| done].
  destruct (SendMessage (handler_send env) m w) as [[m' [err |]] w1]; done.
Qed.

(** X15: the handler that sends one message on request calls the delivery
    API only for a stored message in pending status, and then once.  It
    answers 400 for an identifier that is not a UUID and for a message
    that is not pending, and 404 for an unknown identifier, without any
    request to the API and without touching the store; for a pending
    message it answers 200 exactly when the use case's [SendMessage]
    returns nil, and 500 otherwise; and after a 200 the same request is
    answered 400 "invalid_status" without a second delivery. *)
Theorem send_handler env w :
  let r := MessageHandler.SendMessage env w in
  (parsed_id env = None → r.1.1 = 400 ∧ r.2 = w) ∧
  (∀ id, parsed_id env = Some id → get_outcome env = RowOk →
     match Repo.find_row id (rows w) with
     | None => r.1.1 = 404 ∧ rows r.2 = rows w ∧ api_calls r.2 = api_calls w
     | Some m =>
         if IsPending m then
           api_calls r.2 = api_calls w ++ [request_of m] ∧
           (r.1.1 = 200 ↔ (SendMessage (handler_send env) m w).1.2 = None) ∧
           (r.1.1 = 200 ∨ r.1.1 = 500) ∧
           (r.1.1 = 200 → ∀ env',
              parsed_id env' = Some id → get_outcome env' = RowOk →
              (MessageHandler.SendMessage env' r.2).1
                = (400, ErrorBody (dto.NewErrorResponse "invalid_status"
                                     "Message is not in pending status" 400)) ∧
              api_calls (MessageHandler.SendMessage env' r.2).2 = api_calls r.2)
         else
           r.1 = (400, ErrorBody (dto.NewErrorResponse "invalid_status"
                                    "Message is not in pending status" 400)) ∧
           r.2 = w
     end).
Proof.
  intros r. subst r. split.
  - intros Hp. unfold MessageHandler.SendMessage. by rewrite Hp.
  - intros id Hp Hg.
    destruct (Repo.find_row id (rows w)) as [m |] eqn:Hfind.
    + rewrite (MessageHandler_SendMessage_found env id m w Hp Hg Hfind).
      destruct (IsPending m) eqn:Hpend; simpl; [| done].
      pose proof (SendMessage_api_calls (handler_send env) m w) as Hcalls.
      pose proof (SendMessage_nil_iff (handler_send env) m w) as Hnil.
      pose proof (SendMessage_rows (handler_send env) m w) as Hrows.
      pose proof (SendMessage_result_ID (handler_send env) m w) as HID.
      pose proof (SendMessage_result_status (handler_send env) m w) as Hst.
      destruct (SendMessage (handler_send env) m w) as [[m' [err |]] w1];
        cbn [fst snd] in *.
      * split; [done |]. split; [split; done |]. split; [by right | done].
      * split; [done |]. split; [done |]. split; [by left |].
        intros _ env' Hp' Hg'.
        destruct (proj1 Hnil eq_refl) as [Hd _].
        unfold delivered in Hd. apply andb_true_iff in Hd as [_ Hu].
        destruct (update_outcome (handler_send env)); try done.
        assert (Hfind' : Repo.find_row id (rows w1) = Some (Repo.update_row m' m)).
        { by rewrite Hrows, find_row_update_row, Hfind. }
        rewrite (MessageHandler_SendMessage_found env' id _ w1 Hp' Hg' Hfind').
        assert (IsPending (Repo.update_row m' m) = false) as ->; [| done].
        apply find_row_Some in Hfind as [_ Hid].
        unfold IsPending, Repo.update_row.
        rewrite HID, String.eqb_refl. simpl. by apply bool_decide_eq_false_2.
    + unfold MessageHandler.SendMessage, GetMessageByID, Repo.GetByID, bind, ret.
      rewrite Hp, Hg, Hfind. simpl. done.
Qed.

Lemma send_handler_witness :
  (MessageHandler.SendMessage (send_request "zz") one_pending).1.1 = 404.
Proof.
  destruct (send_handler (send_request "zz") one_pending) as [_ H].
  specialize (H "zz" eq_refl eq_refl). simpl in H. apply H.
Defined.

(** ** The scheduler and its timer *)

(** X16: the snapshot of [GetSchedulerStatus] moves as the entity's own
    transitions say: after a successful start it is [Start] of the snapshot
    before, after a successful stop it is [Stop] of it, and its
    [IsRunning] is the running flag; [GetSchedulerStatus] returns no
    error. *)
Theorem status_follows_entity uc w :
  (∀ env, (StartScheduler env uc w).1.1 = None →
     (GetSchedulerStatus (StartScheduler env uc w).1.2).1
       = SchedulerInfo.Start (start_now env) (GetSchedulerStatus uc).1) ∧
  (∀ e, (StopScheduler e uc w).1.1 = None →
     (GetSchedulerStatus (StopScheduler e uc w).1.2).1
       = SchedulerInfo.Stop (GetSchedulerStatus uc).1) ∧
  SchedulerInfo.IsRunning (GetSchedulerStatus uc).1 = IsRunning uc ∧
  (GetSchedulerStatus uc).2 = None.
Proof.
  split; [| split; [| split]].
  - intros env H. destruct (isRunning uc) eqn:R.
    + by rewrite (StartScheduler_running env uc w R) in H.
    + rewrite (StartScheduler_stopped env uc w R) in *.
      destruct (parse_err env); [done |]. reflexivity.
  - intros e H. destruct (isRunning uc) eqn:R.
    + destruct (StopScheduler_running e uc w R) as [-> _]. reflexivity.
    + by rewrite (StopScheduler_stopped e uc w R) in H.
  - unfold SchedulerInfo.IsRunning, IsRunning. simpl. by destruct (isRunning uc).
  - reflexivity.
Qed.

Lemma status_follows_entity_witness :
  (GetSchedulerStatus running_scheduler).1
  = SchedulerInfo.Start 7 (GetSchedulerStatus (NewSchedulerUseCase sample_config)).1.
Proof.
  destruct (status_follows_entity (NewSchedulerUseCase sample_config) (sample_world []))
    as [H _].
  apply (H start_ok). reflexivity.
Defined.

Lemma Remove_only_entry id nextID running :
  cron.entries (cron.Stop (cron.Remove id
      {| cron.entries := [id]; cron.nextID := nextID; cron.running := running |})) = [].
Proof. simpl. by rewrite Z.eqb_refl. Qed.

Lemma exec_cron_matches s ev s' :
  exec s ev = Some s' → cron_matches (sched s) → cron_matches (sched s').
Proof.
  unfold cron_matches.
  intros H I. destruct ev as [env | e | | i now | i env]; simpl in H.
  - destruct (StartScheduler env (sched s) (world s)) as [[err uc] w] eqn:E.
    injection H as <-. simpl.
    destruct (isRunning (sched s)) eqn:R.
    + rewrite (StartScheduler_running _ _ _ R) in E. injection E as _ <- _.
      by rewrite R.
    + pose proof (StartScheduler_stopped env _ (world s) R) as E'.
      rewrite E in E'. simpl in E'.
      destruct (parse_err env); injection E' as _ ->; simpl.
      * by rewrite R.
      * destruct I as [_ ->]. done.
  - destruct (StopScheduler e (sched s) (world s)) as [[err uc] w] eqn:E.
    injection H as <-. simpl.
    destruct (isRunning (sched s)) eqn:R.
    + destruct (StopScheduler_running e _ (world s) R) as [E' _].
      rewrite E in E'. simpl in E'. injection E' as _ ->. simpl.
      destruct I as [_ ->]. simpl. by rewrite Z.eqb_refl.
    + rewrite (StopScheduler_stopped _ _ _ R) in E. injection E as _ <- _.
      by rewrite R.
  - destruct (cron.fires _ _); [| done]. by injection H as <-.
  - destruct (ticks s !! i) as [[|] |]; try done. by injection H as <-.
  - destruct (ticks s !! i) as [[|] |]; try done.
    assert (Hsame : isRunning (processMessages_end env (sched s) (world s)).1
                      = isRunning (sched s) ∧
                    cron (processMessages_end env (sched s) (world s)).1 = cron (sched s) ∧
                    entryID (processMessages_end env (sched s) (world s)).1
                      = entryID (sched s)).
    { unfold processMessages_end, bind. simpl.
      by destruct (ProcessPendingMessages _ _ _) as [[n [err |]] w']. }
    destruct (processMessages_end env (sched s) (world s)) as [uc w].
    injection H as <-. simpl in *. by destruct Hsame as (-> & -> & ->).
Qed.

(** X17: in every state reachable by start, stop, timer and tick steps the
    cron instance runs and holds exactly the scheduler's entry while the
    scheduler is running, and is stopped with no entry while it is not:
    restarts leave no stale entry behind, and the timer can start a tick
    exactly while the scheduler is running. *)
Theorem timer_registered_iff_running cfg w s :
  reachable cfg w s →
  cron_matches (sched s) ∧
  cron.fires (entryID (sched s)) (cron (sched s)) = isRunning (sched s) ∧
  (is_Some (exec s EvTimerFires) ↔ isRunning (sched s) = true).
Proof.
  intros [evs H].
  assert (G : ∀ evs s0, cron_matches (sched s0) → run s0 evs = Some s →
                        cron_matches (sched s)).
  { clear. intros evs. induction evs as [| ev evs IH]; intros s0 I H; simpl in H.
    - by injection H as <-.
    - destruct (exec s0 ev) as [s1 |] eqn:E; [| done].
      apply (IH s1); [| done]. by apply (exec_cron_matches s0 ev). }
  assert (I : cron_matches (sched s)) by (by apply (G evs (init cfg w))).
  assert (F : cron.fires (entryID (sched s)) (cron (sched s)) = isRunning (sched s)).
  { unfold cron_matches in I. unfold cron.fires.
    destruct (isRunning (sched s)); destruct I as [-> ->]; simpl; [| done].
    by rewrite Z.eqb_refl. }
  split; [done | split; [done |]].
  simpl. rewrite F.
  destruct (isRunning (sched s)); split;
    first [done | by eexists | by intros [? ?]].
Qed.

Lemma timer_registered_iff_running_witness :
  match run (init sample_config (sample_world [])) restarted with
  | Some s => cron.fires (entryID (sched s)) (cron (sched s)) = isRunning (sched s)
  | None => False
  end.
Proof.
  destruct (run (init sample_config (sample_world [])) restarted) as [s |] eqn:E;
    [| vm_compute in E; discriminate].
  apply (timer_registered_iff_running sample_config (sample_world []) s).
  by exists restarted.
Defined.

(** ** The message a send leaves in memory, and a whole tick *)

(** X18: the message as [SendMessage] leaves it depends only on the reply
    of the delivery API and on the clock, not on the database or the
    cache.  It keeps its identifier, content, phone number and creation
    time and is stamped with the time of the attempt; acknowledged as
    sent, it is sent at that time under the identifier of the reply and
    keeps its error text; otherwise it is failed, keeps its sent time and
    external identifier, and its error text is the transport error's text
    or the reply's error, "Unknown error from API" when that is empty. *)
Theorem SendMessage_result env m w :
  let m' := (SendMessage env m w).1.1 in
  ID m' = ID m ∧ Content m' = Content m ∧ PhoneNumber m' = PhoneNumber m ∧
  CreatedAt m' = CreatedAt m ∧ UpdatedAt m' = now env ∧
  match api_reply env with
  | external.Failed _ err =>
      Status m' = MessageStatusFailed ∧ SentAt m' = SentAt m ∧
      ExternalMessageID m' = ExternalMessageID m ∧
      ErrorMessage m' = Some (Error err)
  | external.Ok response =>
      if String.eqb (external.Status response) "sent" then
        Status m' = MessageStatusSent ∧ SentAt m' = Some (now env) ∧
        ExternalMessageID m' = Some (external.MessageID response) ∧
        ErrorMessage m' = ErrorMessage m
      else
        Status m' = MessageStatusFailed ∧ SentAt m' = SentAt m ∧
        ExternalMessageID m' = ExternalMessageID m ∧
        ErrorMessage m' =
          Some (if String.eqb (external.Error response) ""
                then "Unknown error from API" else external.Error response) ∧
        ErrorMessage m' ≠ Some ""
  end.
Proof.
  send_cases env w; repeat split; try done;
    destruct (String.eqb_spec (external.Error response) "") as [Her | Her];
    try done; congruence.
Qed.

Lemma processMessages_frame now env uc w :
  let uc' := (processMessages now env uc w).1 in
  lastRun uc' = Some now ∧
  nextRun uc' = Some (now + config.Interval (config uc)) ∧
  isRunning uc' = isRunning uc ∧ config uc' = config uc ∧
  cron uc' = cron uc ∧ entryID uc' = entryID uc.
Proof.
  unfold processMessages, processMessages_end, bind. simpl.
  by destruct (ProcessPendingMessages _ _ _) as [[n [err |]] w'].
Qed.

Lemma ProcessPendingMessages_count_le env n w :
  (ProcessPendingMessages env n w).1.1 ≤ Z.max 0 n.
Proof.
  destruct (decide (fetch env = FetchOk ∧ 0 ≤ n)) as [[Hf Hn] | H].
  - destruct (ProcessPendingMessages_ok env n w Hf Hn) as [-> _]. cbn [fst snd].
    pose proof (sendLoop_count_bounds (sends env) (Repo.select_pending (rows w) n)
                  0%nat 0 (logf InfoLevel "Processing pending messages" w).2) as [_ Hle].
    rewrite select_pending_length in Hle. lia.
  - destruct (ProcessPendingMessages_fetch_fails env n w H) as (e & -> & _). simpl. lia.
Qed.

Lemma processMessages_rows now env uc w :
  rows (processMessages now env uc w).2
  = rows (ProcessPendingMessages env (config.MessagesPerBatch (config uc)) w).2.
Proof.
  destruct (ProcessPendingMessages_same_but_cache env env
              (config.MessagesPerBatch (config uc))
              (logf InfoLevel "Starting scheduled message processing" w).2 w
              eq_refl (λ k, same_but_cache_refl _) eq_refl) as [_ <-].
  unfold processMessages, processMessages_end, bind. simpl.
  by destruct (ProcessPendingMessages _ _ _) as [[n [err |]] w'].
Qed.

(** X19: one whole tick.  [processMessages] records the time of the tick as
    last run and that time plus the interval as next run, leaves the
    running flag, the configuration and the timer as they are, and does
    to the store what [ProcessPendingMessages] with the configured batch
    size does.  While the counter fits an int it grows by the count of
    the batch, which is never negative and never more than the batch
    size; when the batch call fails it does not move. *)
Theorem processMessages_tick now env uc w :
  let uc' := (processMessages now env uc w).1 in
  let batch := (ProcessPendingMessages env (config.MessagesPerBatch (config uc)) w).1 in
  lastRun uc' = Some now ∧
  nextRun uc' = Some (now + config.Interval (config uc)) ∧
  isRunning uc' = isRunning uc ∧ config uc' = config uc ∧
  cron uc' = cron uc ∧ entryID uc' = entryID uc ∧
  rows (processMessages now env uc w).2
    = rows (ProcessPendingMessages env (config.MessagesPerBatch (config uc)) w).2 ∧
  (is_Some batch.2 → sentCount uc' = sentCount uc) ∧
  (batch.2 = None → min_int ≤ sentCount uc → sentCount uc + batch.1 ≤ max_int →
     sentCount uc' = sentCount uc + batch.1 ∧
     sentCount uc ≤ sentCount uc' ≤ sentCount uc + Z.max 0 (config.MessagesPerBatch (config uc))).
Proof.
  intros uc' batch. subst uc' batch.
  destruct (processMessages_frame now env uc w) as (H1 & H2 & H3 & H4 & H5 & H6).
  repeat (split; [done |]).
  split; [apply processMessages_rows |].
  pose proof (processMessages_end_sentCount env (processMessages_begin now uc) w) as Hc.
  cbv zeta in Hc. fold (processMessages now env uc w) in Hc. simpl in Hc.
  pose proof (ProcessPendingMessages_count_bounds env
                (config.MessagesPerBatch (config uc)) w) as Hlo.
  pose proof (ProcessPendingMessages_count_le env
                (config.MessagesPerBatch (config uc)) w) as Hhi.
  split.
  - intros [e He]. rewrite Hc. by rewrite He.
  - intros He Hmin Hfit. rewrite Hc, He. rewrite wrap_int_fits by lia. lia.
Qed.

Lemma processMessages_tick_witness :
  sentCount (processMessages 9 first_send_fails running_scheduler three_pending).1 = 1.
Proof.
  destruct (processMessages_tick 9 first_send_fails running_scheduler three_pending)
    as (_ & _ & _ & _ & _ & _ & _ & _ & H).
  destruct H as [H _]; [reflexivity | by vm_compute | by vm_compute |].
  rewrite H. reflexivity.
Defined.
